(** * Toot-Worker: a shallow embedding of the feed-to-post pipeline

    The worker polls one RSS feed, turns every item into a plain-text
    post and publishes the recent ones to a Mastodon instance, keeping
    the link of the last published post in a key-value namespace.

    The embedding follows [src/main.js], in the version that parses the
    feed with its own regular expressions and decodes HTML entities.
    The orchestration ([processLatestPosts], [processPostsRecursively],
    [isPostAlreadyPublished], [savePublishedPost], [publishToMastodon])
    reads the same in every version the repository carries.  Two other
    formulations of [convertHtmlToText] are embedded in the modules
    [Plain] (regular expressions, no entity decoding) and [Dom] (a walk
    over a parsed DOM tree).

    Everything the worker calls but does not define (the clock, [fetch],
    the key-value namespace, [new URL], date parsing) is a [Platform],
    whose answers may depend on all that happened before; a cycle is a
    function from a [World] (namespace contents and trace of effects) to
    a result and a new world. *)

From Stdlib Require Import ZArith NArith Ascii String List Bool Lia.
From stdpp Require Import base option list gmap.

Set Warnings "-register-all".
Local Open Scope N_scope.

(* ===================================================================== *)
(** ** JavaScript strings                                                 *)
(* ===================================================================== *)

(** A JavaScript string is a sequence of UTF-16 code units. *)
Abbreviation jsstring := (list N).

(** [js s] is the JavaScript string with the code units of an ASCII
    literal. *)
Definition js (s : string) : jsstring :=
  map N_of_ascii (list_ascii_of_string s).

(** The characters the worker names. *)
Definition LT_SIGN : N := 60.   (* < *)
Definition GT_SIGN : N := 62.   (* > *)
Definition AMPERSAND : N := 38. (* & *)
Definition LF : N := 10.
Definition QUOTE : N := 34.     (* the double quote *)

(** WhiteSpace and LineTerminator code units ([String.prototype.trim]
    strips both). *)
Definition isLineTerminator (c : N) : bool :=
  (c =? 10) || (c =? 13) || (c =? 0x2028) || (c =? 0x2029).

Definition isWhiteSpace (c : N) : bool :=
  (c =? 9) || (c =? 11) || (c =? 12) || (c =? 32) || (c =? 160)
  || (c =? 0xFEFF) || (c =? 0x1680)
  || ((0x2000 <=? c) && (c <=? 0x200A))
  || (c =? 0x202F) || (c =? 0x205F) || (c =? 0x3000).

Definition isTrimmed (c : N) : bool := isWhiteSpace c || isLineTerminator c.

Fixpoint trimStart (s : jsstring) : jsstring :=
  match s with
  | c :: s' => if isTrimmed c then trimStart s' else s
  | [] => []
  end.

Definition trimEnd (s : jsstring) : jsstring := rev (trimStart (rev s)).

(** [s.trim()] *)
Definition trim (s : jsstring) : jsstring := trimEnd (trimStart s).

(* ===================================================================== *)
(** ** Regular expressions                                                *)
(* ===================================================================== *)

(** The backtracking matcher of ECMAScript, restricted to the
    constructs the worker's patterns use: literals (with or without the
    [i] flag), character classes, sequence, alternation, [?], greedy
    and lazy repetition of a character class, and capture groups. *)
Module RegExp.

Inductive regex : Type :=
| Empty
| Char (c : N)                 (* literal, case-sensitive *)
| CharI (c : N)                (* ASCII literal under the i flag *)
| Class (p : N -> bool)        (* [...], \d, . *)
| Seq (r1 r2 : regex)
| Alt (r1 r2 : regex)
| Opt (r : regex)              (* r?  *)
| Star (p : N -> bool)         (* [...]*  greedy *)
| StarLazy (p : N -> bool)     (* [...]*? *)
| Plus (p : N -> bool)         (* [...]+  greedy *)
| Group (i : nat) (r : regex). (* ( r ), the i-th capture *)

(** Captures, most recent first. *)
Definition captures := list (nat * jsstring).

Fixpoint capture (cs : captures) (i : nat) : jsstring :=
  match cs with
  | (j, s) :: cs' => if Nat.eqb i j then s else capture cs' i
  | [] => []
  end.

(** Canonicalize of an ASCII code unit under the [i] flag: the
    pattern literals are all ASCII, and a code unit above 127 never
    canonicalizes to an ASCII one. *)
Definition canonicalize (c : N) : N :=
  if (97 <=? c) && (c <=? 122) then c - 32 else c.

Section Matcher.
Context {R : Type}.

Fixpoint star_greedy (p : N -> bool) (k : jsstring -> option R)
    (s : jsstring) : option R :=
  match s with
  | c :: s' =>
      if p c then
        match star_greedy p k s' with
        | Some r => Some r
        | None => k s
        end
      else k s
  | [] => k s
  end.

Fixpoint star_lazy (p : N -> bool) (k : jsstring -> option R)
    (s : jsstring) : option R :=
  match k s with
  | Some r => Some r
  | None =>
      match s with
      | c :: s' => if p c then star_lazy p k s' else None
      | [] => None
      end
  end.

(** [matcher r k s cs]: match [r] at the head of [s], then continue
    with [k] on what is left; backtrack into [r] when [k] fails. *)
Fixpoint matcher (r : regex) (k : jsstring -> captures -> option R)
    (s : jsstring) (cs : captures) : option R :=
  match r with
  | Empty => k s cs
  | Char c =>
      match s with
      | x :: s' => if x =? c then k s' cs else None
      | [] => None
      end
  | CharI c =>
      match s with
      | x :: s' =>
          if canonicalize x =? canonicalize c then k s' cs else None
      | [] => None
      end
  | Class p =>
      match s with
      | x :: s' => if p x then k s' cs else None
      | [] => None
      end
  | Seq r1 r2 => matcher r1 (fun s' cs' => matcher r2 k s' cs') s cs
  | Alt r1 r2 =>
      match matcher r1 k s cs with
      | Some x => Some x
      | None => matcher r2 k s cs
      end
  | Opt r1 =>
      match matcher r1 k s cs with
      | Some x => Some x
      | None => k s cs
      end
  | Star p => star_greedy p (fun s' => k s' cs) s
  | StarLazy p => star_lazy p (fun s' => k s' cs) s
  | Plus p =>
      match s with
      | x :: s' =>
          if p x then star_greedy p (fun s' => k s' cs) s' else None
      | [] => None
      end
  | Group i r1 =>
      matcher r1
        (fun s' cs' =>
           k s' ((i, take (length s - length s') s) :: cs'))
        s cs
  end.
End Matcher.

(** A match anchored at the head of [s]: what is left after it, and
    the captures. *)
Definition match_here (r : regex) (s : jsstring)
    : option (jsstring * captures) :=
  matcher r (fun s' cs => Some (s', cs)) s [].

(** [regex.exec] / [str.match] without the [g] flag: the leftmost
    match. *)
Fixpoint search (r : regex) (s : jsstring)
    : option (jsstring * captures) :=
  match match_here r s with
  | Some m => Some m
  | None =>
      match s with
      | _ :: s' => search r s'
      | [] => None
      end
  end.

(** [str.replace(/r/g, f)]: [f] receives the captures and the matched
    text.  [skip] counts the code units of the current match that are
    still to be passed over. *)
Fixpoint replace_from (r : regex) (f : captures -> jsstring -> jsstring)
    (skip : nat) (s : jsstring) : jsstring :=
  match s with
  | [] =>
      match skip, match_here r [] with
      | O, Some (_, cs) => f cs []
      | _, _ => []
      end
  | c :: s' =>
      match skip with
      | S n => replace_from r f n s'
      | O =>
          match match_here r s with
          | Some (rest, cs) =>
              let len := (length s - length rest)%nat in
              f cs (take len s) ++
                match len with
                | O => c :: replace_from r f O s'
                | S n => replace_from r f n s'
                end
          | None => c :: replace_from r f O s'
          end
      end
  end.

Definition replace_all (r : regex) (f : captures -> jsstring -> jsstring)
    (s : jsstring) : jsstring :=
  replace_from r f O s.

(** Every match of a [g] pattern, as the [exec] loop collects them. *)
Fixpoint exec_from (r : regex) (skip : nat) (s : jsstring)
    : list captures :=
  match s with
  | [] =>
      match skip, match_here r [] with
      | O, Some (_, cs) => [cs]
      | _, _ => []
      end
  | _ :: s' =>
      match skip with
      | S n => exec_from r n s'
      | O =>
          match match_here r s with
          | Some (rest, cs) =>
              cs :: exec_from r (pred (length s - length rest)) s'
          | None => exec_from r O s'
          end
      end
  end.

(** Pattern text helpers. *)
Fixpoint seq_of (rs : list regex) : regex :=
  match rs with
  | [] => Empty
  | [r] => r
  | r :: rs' => Seq r (seq_of rs')
  end.

Definition lit (s : string) : regex := seq_of (map Char (js s)).
Definition litI (s : string) : regex := seq_of (map CharI (js s)).

Definition not_char (c : N) : N -> bool := fun x => negb (x =? c).
Definition digit : N -> bool := fun x => (48 <=? x) && (x <=? 57).
Definition hexdigit : N -> bool :=
  fun x => ((97 <=? x) && (x <=? 102)) || ((65 <=? x) && (x <=? 70))
           || ((48 <=? x) && (x <=? 57)).
Definition dot : N -> bool := fun x => negb (isLineTerminator x).
Definition any : N -> bool := fun _ => true.

End RegExp.

Import RegExp.

(* ===================================================================== *)
(** ** Numbers                                                            *)
(* ===================================================================== *)

(** The Number nearest to a non-negative integer (round to nearest,
    ties to even); [None] is [Infinity]. *)
Definition toNumber (n : N) : option N :=
  let bits := N.size n in
  if bits <=? 53 then Some n
  else
    let e := bits - 53 in
    let q := N.shiftr n e in
    let r := n - N.shiftl q e in
    let half := N.shiftl 1 (e - 1) in
    let q' := if (half <? r) || ((r =? half) && N.odd q) then q + 1 else q in
    let v := N.shiftl q' e in
    if N.shiftl 1 1024 <=? v then None else Some v.

(** ToUint16 *)
Definition toUint16 (x : option N) : N :=
  match x with
  | Some v => v mod 65536
  | None => 0
  end.

Definition digit_value (c : N) : N :=
  if (48 <=? c) && (c <=? 57) then c - 48
  else if (97 <=? c) && (c <=? 102) then c - 87
  else c - 55.

(** The integer a digit string denotes in the given radix. *)
Definition digits_value (radix : N) (s : jsstring) : N :=
  fold_left (fun acc c => acc * radix + digit_value c) s 0.

(** [String.fromCharCode(dec)] on a captured run of decimal digits: the
    string is converted to a Number (leading zeros do not make it
    octal), then to a code unit.  Beyond twenty significant digits the
    language lets an engine round the decimal less exactly than done
    here. *)
Definition fromCharCode_dec (dec : jsstring) : jsstring :=
  [toUint16 (toNumber (digits_value 10 dec))].

(** [String.fromCharCode(parseInt(hex, 16))] *)
Definition fromCharCode_hex (hex : jsstring) : jsstring :=
  [toUint16 (toNumber (digits_value 16 hex))].

(* ===================================================================== *)
(** ** HTML to plain text                                                 *)
(* ===================================================================== *)

(** [str.replace(/text/g, to)] for a literal pattern. *)
Definition replace_lit (pat : string) (to : jsstring) (s : jsstring)
    : jsstring :=
  replace_all (lit pat) (fun _ _ => to) s.

(** [/&#(\d+);/g] *)
Definition re_dec_ref : regex :=
  seq_of [lit "&#"; Group 1 (Plus digit); lit ";"].

(** [/&#x([a-fA-F0-9]+);/g] *)
Definition re_hex_ref : regex :=
  seq_of [lit "&#x"; Group 1 (Plus hexdigit); lit ";"].

Definition decodeHtmlEntities (str : jsstring) : jsstring :=
  let s := replace_lit "&lt;" (js "<") str in
  let s := replace_lit "&gt;" (js ">") s in
  let s := replace_lit "&amp;" (js "&") s in
  let s := replace_lit "&quot;" [QUOTE] s in
  let s := replace_lit "&#39;" (js "'") s in
  let s := replace_lit "&rsquo;" [0x2019] s in
  let s := replace_lit "&lsquo;" [0x2018] s in
  let s := replace_lit "&ldquo;" [0x201C] s in
  let s := replace_lit "&rdquo;" [0x201D] s in
  let s := replace_lit "&mdash;" [0x2014] s in
  let s := replace_lit "&ndash;" [0x2013] s in
  let s := replace_lit "&copy;" [0xA9] s in
  let s := replace_lit "&reg;" [0xAE] s in
  let s := replace_lit "&euro;" [0x20AC] s in
  let s := replace_lit "&pound;" [0xA3] s in
  let s := replace_lit "&yen;" [0xA5] s in
  let s := replace_lit "&times;" [0xD7] s in
  let s := replace_lit "&divide;" [0xF7] s in
  let s := replace_all re_dec_ref
             (fun cs _ => fromCharCode_dec (capture cs 1)) s in
  replace_all re_hex_ref (fun cs _ => fromCharCode_hex (capture cs 1)) s.

(** [/<\/?(?:p|div|br)[^>]*>/g] *)
Definition re_block : regex :=
  seq_of [Char LT_SIGN; Opt (Char 47);
          Alt (lit "p") (Alt (lit "div") (lit "br"));
          Star (not_char GT_SIGN); Char GT_SIGN].

(** [/<a[^>]*href=\x22([^\x22]+)\x22[^>]*>(.*?)<\/a>/gi], the double
    quote written [\x22] here. *)
Definition re_anchor : regex :=
  seq_of [litI "<a"; Star (not_char GT_SIGN); litI "href="; CharI QUOTE;
          Group 1 (Plus (not_char QUOTE)); CharI QUOTE;
          Star (not_char GT_SIGN); CharI GT_SIGN;
          Group 2 (StarLazy dot); litI "</a>"].

(** [/<img[^>]*alt=\x22([^\x22]* )\x22[^>]*src=\x22([^\x22]+)\x22[^>]*>/gi]
    (a blank added before the first closing parenthesis). *)
Definition re_img : regex :=
  seq_of [litI "<img"; Star (not_char GT_SIGN); litI "alt="; CharI QUOTE;
          Group 1 (Star (not_char QUOTE)); CharI QUOTE;
          Star (not_char GT_SIGN); litI "src="; CharI QUOTE;
          Group 2 (Plus (not_char QUOTE)); CharI QUOTE;
          Star (not_char GT_SIGN); CharI GT_SIGN].

(** [/<[^>]+>/g] *)
Definition re_tag : regex :=
  seq_of [Char LT_SIGN; Plus (not_char GT_SIGN); Char GT_SIGN].

(** The four structural passes and the final [trim], shared by the two
    regular-expression formulations. *)
Definition structuralPasses (html : jsstring) : jsstring :=
  let s := replace_all re_block (fun _ _ => [LF]) html in
  let s := replace_all re_anchor
             (fun cs _ => capture cs 2 ++ js " (" ++ capture cs 1 ++ js ")") s in
  let s := replace_all re_img
             (fun cs _ => js "[" ++ capture cs 1 ++ js "] (" ++ capture cs 2
                          ++ js ")") s in
  let s := replace_all re_tag (fun _ _ => []) s in
  trim s.

Definition convertHtmlToText (html : jsstring) : jsstring :=
  let decodedHtml := decodeHtmlEntities html in
  structuralPasses decodedHtml.

(** The formulation without entity decoding. *)
Module Plain.
Definition convertHtmlToText (html : jsstring) : jsstring :=
  structuralPasses html.
End Plain.

(** The formulation that walks a parsed DOM tree
    ([src/unnamed/part_001]). *)
Module Dom.

Inductive Node : Type :=
| TextNode (textContent : jsstring)          (* Node.TEXT_NODE *)
| ElementNode (tagName : jsstring)           (* Node.ELEMENT_NODE *)
    (attributes : list (jsstring * jsstring))
    (childNodes : list Node)
| OtherNode.                                 (* comments and the like *)

(** [toLowerCase] on the ASCII range.  No code unit outside ASCII
    lowercases to a single ASCII letter of br, p, div, a or img, so
    the tag tests below decide as the full mapping does. *)
Definition toLowerCase (s : jsstring) : jsstring :=
  map (fun c => if (65 <=? c) && (c <=? 90) then c + 32 else c) s.

Fixpoint getAttribute (attributes : list (jsstring * jsstring))
    (name : jsstring) : option jsstring :=
  match attributes with
  | (n, v) :: rest =>
      if bool_decide (n = name) then Some v else getAttribute rest name
  | [] => None
  end.

Definition hasAttribute (attributes : list (jsstring * jsstring))
    (name : jsstring) : bool :=
  match getAttribute attributes name with
  | Some _ => true
  | None => false
  end.

(** [value || fallback] on a nullable string: [null] and the empty
    string are falsy. *)
Definition or_else (value : option jsstring) (fallback : jsstring)
    : jsstring :=
  match value with
  | Some (c :: v) => c :: v
  | _ => fallback
  end.

Fixpoint convertHtmlToText (element : Node) : jsstring :=
  match element with
  | ElementNode _ _ childNodes =>
      trim (flat_map
        (fun node =>
           match node with
           | TextNode textContent => textContent
           | ElementNode tag attrs _ =>
               let tagName := toLowerCase tag in
               if bool_decide (tagName = js "br") then [LF]
               else if bool_decide (tagName = js "p")
                       || bool_decide (tagName = js "div") then
                 convertHtmlToText node ++ [LF; LF]
               else if bool_decide (tagName = js "a")
                       && hasAttribute attrs (js "href") then
                 let href := default [] (getAttribute attrs (js "href")) in
                 let linkText := convertHtmlToText node in
                 linkText ++ js " (" ++ href ++ js ")"
               else if bool_decide (tagName = js "img")
                       && hasAttribute attrs (js "src") then
                 let src := default [] (getAttribute attrs (js "src")) in
                 let alt := or_else (getAttribute attrs (js "alt"))
                              (js "Image") in
                 js "[" ++ alt ++ js "] (" ++ src ++ js ")"
               else convertHtmlToText node
           | OtherNode => []
           end)
        childNodes)
  | _ => []
  end.

End Dom.

(* ===================================================================== *)
(** ** Feed parsing                                                       *)
(* ===================================================================== *)

(** [new RegExp(`<${tagName}[^>]*>([\\s\\S]*?)</${tagName}>`, "gi")] for
    a tag name of letters. *)
Definition re_element (tagName : string) : regex :=
  seq_of [CharI LT_SIGN; litI tagName; Star (not_char GT_SIGN);
          CharI GT_SIGN; Group 1 (StarLazy any);
          litI "</"; litI tagName; CharI GT_SIGN].

Definition extractElements (xml : jsstring) (tagName : string)
    : list jsstring :=
  map (fun cs => capture cs 1) (exec_from (re_element tagName) O xml).

Definition extractElementValue (xml : jsstring) (tagName : string)
    : option jsstring :=
  match search (re_element tagName) xml with
  | Some (_, cs) => Some (trim (capture cs 1))
  | None => None
  end.

(* ===================================================================== *)
(** ** Dates                                                              *)
(* ===================================================================== *)

(** The time value of a [Date]: milliseconds since the epoch, or [None]
    for [NaN] (an Invalid Date). *)
Abbreviation timeValue := (option Z).

(** TimeClip, applied by [new Date(number)]. *)
Definition timeClip (t : Z) : timeValue :=
  if (Z.abs t <=? 8640000000000000)%Z then Some t else None.

(** [a < b] on two Dates: both are converted to their time values and
    any comparison with [NaN] is false. *)
Definition date_lt (a b : timeValue) : bool :=
  match a, b with
  | Some x, Some y => (x <? y)%Z
  | _, _ => false
  end.

(** [new Date(nowUTC - 30 * 60 * 1000)] *)
Definition thirtyMinutesAgo (nowUTC : Z) : timeValue :=
  timeClip (nowUTC - 30 * 60 * 1000)%Z.

(* ===================================================================== *)
(** ** The platform and the effects of a cycle                            *)
(* ===================================================================== *)

Definition LAST_POST_KEY : jsstring := js "last_post".

(** A thrown value. *)
Inductive Error : Type := mkError (message : jsstring).

Record Response : Type := mkResponse {
  ok : bool;
  statusText : jsstring;
  text : Error + jsstring       (* what [await response.text()] gives *)
}.

(** What a cycle does to the outside, in order. *)
Inductive Event : Type :=
| ConsoleLog (message : jsstring)
| ConsoleError (message : jsstring) (error : Error)
| FetchGet (url : jsstring)
| FetchPost (url authorization status visibility : jsstring)
| KvGet (key : jsstring)
| KvPut (key value : jsstring).

(** The behaviour of everything the worker calls but does not define.
    A call's outcome may depend on all that happened before it. *)
Record Platform : Type := mkPlatform {
  URL_valid : jsstring -> bool;              (* [new URL(url)] returns *)
  Date_parse : jsstring -> timeValue;        (* [new Date(string)] *)
  Date_now : list Event -> Z;                (* [new Date()] *)
  feed : jsstring -> Error + Response;       (* the cycle's feed fetch *)
  post_status : list Event -> jsstring -> jsstring -> Error + Response;
  kv_get_rejects : list Event -> jsstring -> option Error;
  kv_put_rejects : list Event -> jsstring -> jsstring -> option Error
}.

Record World : Type := mkWorld {
  kv : gmap jsstring jsstring;  (* the TOOTWORKER_KV namespace *)
  trace : list Event
}.

Record Env : Type := mkEnv {
  RSS_FEED_URL : jsstring;
  MASTODON_INSTANCE : jsstring;
  ACCESS_TOKEN : jsstring
}.

Record Post : Type := mkPost {
  description : jsstring;
  link : jsstring;
  pubDateUTC : timeValue
}.

(** An asynchronous computation: it changes the world and either
    returns or throws. *)
Definition M (A : Type) : Type := World -> (Error + A) * World.

Definition ret {A} (a : A) : M A := fun w => (inr a, w).

Definition bind {A B} (m : M A) (f : A -> M B) : M B :=
  fun w =>
    match m w with
    | (inr a, w') => f a w'
    | (inl e, w') => (inl e, w')
    end.

Definition throw {A} (e : Error) : M A := fun w => (inl e, w).

(** [try { m } catch (error) { h error }] *)
Definition try_catch {A} (m : M A) (h : Error -> M A) : M A :=
  fun w =>
    match m w with
    | (inl e, w') => h e w'
    | r => r
    end.

Definition emit (e : Event) : M unit :=
  fun w => (inr tt, {| kv := kv w; trace := trace w ++ [e] |}).

Definition history : M (list Event) := fun w => (inr (trace w), w).

Declare Scope js_scope.
Delimit Scope js_scope with js.
Notation "'let*' x ':=' m 'in' k" := (bind m (fun x => k))
  (at level 10, x name, m at level 100, k at level 200) : js_scope.
Notation "m ;; k" := (bind m (fun _ => k))
  (at level 100, k at level 200, right associativity) : js_scope.
Local Open Scope js_scope.

Definition console_log (message : jsstring) : M unit :=
  emit (ConsoleLog message).

Definition console_error (message : jsstring) (error : Error) : M unit :=
  emit (ConsoleError message error).

Definition lift_result {A} (r : Error + A) : M A :=
  match r with
  | inl e => throw e
  | inr a => ret a
  end.

(** [for (const x of xs) { body }] *)
Fixpoint for_of {A} (xs : list A) (body : A -> M unit) : M unit :=
  match xs with
  | [] => ret tt
  | x :: xs' => body x;; for_of xs' body
  end.

(* ===================================================================== *)
(** ** The pipeline                                                       *)
(* ===================================================================== *)

Section Pipeline.
Variable P : Platform.

(** [await kvNamespace.get(key)]: the stored string, or [null]. *)
Definition kv_get (key : jsstring) : M (option jsstring) :=
  let* h := history in
  emit (KvGet key);;
  match kv_get_rejects P h key with
  | Some e => throw e
  | None => fun w => (inr (kv w !! key), w)
  end.

(** [await kvNamespace.put(key, value)]; a rejected write leaves the
    namespace as it was. *)
Definition kv_put (key value : jsstring) : M unit :=
  let* h := history in
  emit (KvPut key value);;
  match kv_put_rejects P h key value with
  | Some e => throw e
  | None =>
      fun w => (inr tt, {| kv := <[key := value]> (kv w); trace := trace w |})
  end.

(** [await fetch(url)] *)
Definition fetch_get (url : jsstring) : M Response :=
  emit (FetchGet url);;
  lift_result (feed P url).

(** [await fetch(url, { method: "POST", headers, body })], the body
    being the JSON of [{ status, visibility }] (and of the constant
    [application] entry). *)
Definition fetch_post (url authorization status visibility : jsstring)
    : M Response :=
  let* h := history in
  emit (FetchPost url authorization status visibility);;
  lift_result (post_status P h url status).

Definition isPostAlreadyPublished (link : jsstring) : M bool :=
  try_catch
    (let* lastPublishedLink := kv_get LAST_POST_KEY in
     ret (bool_decide (lastPublishedLink = Some link)))
    (fun error =>
       console_error
         (js "Error checking if post has already been published:") error;;
       ret false).

Definition savePublishedPost (link : jsstring) : M unit :=
  try_catch
    (kv_put LAST_POST_KEY link)
    (fun error =>
       console_error (js "Error saving the published post link:") error).

Definition publishToMastodon
    (content mastodonInstance accessToken : jsstring) : M unit :=
  try_catch
    (let* response :=
       fetch_post (mastodonInstance ++ js "/api/v1/statuses")
         (js "Bearer " ++ accessToken) content (js "public") in
     (if negb (ok response) then
        let* errorText := lift_result (text response) in
        throw (mkError (js "Mastodon API Error: " ++ errorText))
      else ret tt);;
     console_log (js "Post published successfully to Mastodon."))
    (fun error => console_error (js "Error publishing to Mastodon:") error).

(** The body of the loop of [processPostsRecursively]; [continue]
    ends it early. *)
Definition processPost (env : Env) (thirtyMinutesAgoUTC : timeValue)
    (post : Post) : M unit :=
  try_catch
    (if date_lt (pubDateUTC post) thirtyMinutesAgoUTC then
       console_log (js "Skipping post older than 30 minutes: " ++ link post)
     else
       let* published := isPostAlreadyPublished (link post) in
       if published then
         console_log (js "Post already published: " ++ link post)
       else
         console_log (js "Publishing post: " ++ link post);;
         publishToMastodon (description post) (MASTODON_INSTANCE env)
           (ACCESS_TOKEN env);;
         savePublishedPost (link post);;
         console_log
           (js "Post published and saved successfully: " ++ link post))
    (fun error =>
       console_error (js "Error processing post: " ++ link post) error).

Definition processPostsRecursively (posts : list Post) (env : Env)
    : M unit :=
  let* h := history in
  let nowUTC := Date_now P h in
  let thirtyMinutesAgoUTC := thirtyMinutesAgo nowUTC in
  for_of posts (processPost env thirtyMinutesAgoUTC).

(** One feed item to one post. *)
Definition toPost (item : jsstring) : Post :=
  let descriptionHtml := default [] (extractElementValue item "description") in
  let link := default [] (extractElementValue item "link") in
  let pubDate := default [] (extractElementValue item "pubDate") in
  let pubDateUTC := Date_parse P pubDate in
  let description := convertHtmlToText descriptionHtml in
  let fullDescription :=
    description ++ [LF; LF] ++ js "This post was first seen on " ++ link in
  {| description := fullDescription; link := link;
     pubDateUTC := pubDateUTC |}.

Definition fetchAllPosts (rssFeedUrl : jsstring) : M (list Post) :=
  if negb (URL_valid P rssFeedUrl) then
    throw (mkError (js "Invalid RSS feed URL: " ++ rssFeedUrl))
  else
    try_catch
      (let* response := fetch_get rssFeedUrl in
       (if negb (ok response) then
          throw (mkError (js "Failed to fetch RSS feed: "
                          ++ statusText response))
        else ret tt);;
       let* rssText := lift_result (text response) in
       let items := extractElements rssText "item" in
       ret (map toPost items))
      (fun error =>
         console_error (js "Error fetching or parsing RSS feed:") error;;
         throw error).

Definition processLatestPosts (env : Env) : M unit :=
  try_catch
    (console_log (js "Fetching all posts from RSS feed...");;
     let* posts := fetchAllPosts (RSS_FEED_URL env) in
     match posts with
     | [] => console_log (js "No posts available in the RSS feed.")
     | _ =>
         console_log (js "Processing eligible posts...");;
         processPostsRecursively posts env;;
         console_log (js "All eligible posts have been processed.")
     end)
    (fun error => console_error (js "Error processing RSS posts:") error).

End Pipeline.

(* ===================================================================== *)
(** ** Observations on a trace                                            *)
(* ===================================================================== *)

Definition isPublishCall (e : Event) : bool :=
  match e with FetchPost _ _ _ _ => true | _ => false end.

Definition isLedgerWrite (e : Event) : bool :=
  match e with KvPut _ _ => true | _ => false end.

(** The calls to the posting API, in order. *)
Definition publishCalls (t : list Event) : list Event :=
  List.filter isPublishCall t.

(** The writes to the key-value namespace, in order. *)
Definition ledgerWrites (t : list Event) : list Event :=
  List.filter isLedgerWrite t.

(** The status texts that were posted, in order. *)
Definition publishedBodies (t : list Event) : list jsstring :=
  flat_map (fun e => match e with
                     | FetchPost _ _ status _ => [status]
                     | _ => []
                     end) t.

(* ===================================================================== *)
(** ** Concrete platforms, for evaluation                                 *)
(* ===================================================================== *)

(** 2024-01-01T00:00:00Z *)
Definition t0 : Z := 1704067200000%Z.

Definition okResponse (body : jsstring) : Response :=
  {| ok := true; statusText := js "OK"; text := inr body |}.

Definition errorResponse (status body : jsstring) : Response :=
  {| ok := false; statusText := status; text := inr body |}.

(** Everything works: the feed is served, posts are accepted, the
    namespace answers.  The one date text in use is that of [t0]; the
    empty string, as everywhere, is an Invalid Date. *)
Definition calmPlatform (rss : jsstring) : Platform :=
  {| URL_valid := fun _ => true;
     Date_parse := fun s =>
       if bool_decide (s = js "Mon, 01 Jan 2024 00:00:00 GMT")
       then Some t0 else None;
     Date_now := fun _ => t0;
     feed := fun _ => inr (okResponse rss);
     post_status := fun _ _ _ => inr (okResponse (js "{}"));
     kv_get_rejects := fun _ _ => None;
     kv_put_rejects := fun _ _ _ => None |}.

(** The posting API answers every request with a server error. *)
Definition refusingPlatform : Platform :=
  {| URL_valid := fun _ => true;
     Date_parse := fun _ => None;
     Date_now := fun _ => t0;
     feed := fun _ => inr (okResponse []);
     post_status := fun _ _ _ =>
       inr (errorResponse (js "Internal Server Error") (js "boom"));
     kv_get_rejects := fun _ _ => None;
     kv_put_rejects := fun _ _ _ => None |}.

(** The feed server answers with HTTP 500. *)
Definition feedDownPlatform : Platform :=
  {| URL_valid := fun _ => true;
     Date_parse := fun _ => None;
     Date_now := fun _ => t0;
     feed := fun _ =>
       inr (errorResponse (js "Internal Server Error") []);
     post_status := fun _ _ _ => inr (okResponse (js "{}"));
     kv_get_rejects := fun _ _ => None;
     kv_put_rejects := fun _ _ _ => None |}.

Definition env0 : Env :=
  {| RSS_FEED_URL := js "https://blog.test/rss";
     MASTODON_INSTANCE := js "https://social.test";
     ACCESS_TOKEN := js "token" |}.

Definition emptyWorld : World := {| kv := ∅; trace := [] |}.

Definition ledgerWorld (link : jsstring) : World :=
  {| kv := {[ LAST_POST_KEY := link ]}; trace := [] |}.

Definition postA : Post :=
  {| description := js "first"; link := js "A";
     pubDateUTC := Some (t0 - 5 * 60 * 1000)%Z |}.

Definition postB : Post :=
  {| description := js "second"; link := js "B";
     pubDateUTC := Some (t0 - 10 * 60 * 1000)%Z |}.

Definition postOld : Post :=
  {| description := js "old"; link := js "O";
     pubDateUTC := Some (t0 - 2 * 60 * 60 * 1000)%Z |}.

(** A post whose [pubDate] did not parse: an Invalid Date. *)
Definition postUndated : Post :=
  {| description := js "undated"; link := js "U"; pubDateUTC := None |}.

(* ===================================================================== *)
(** ** Vocabulary of the statements                                       *)
(* ===================================================================== *)

Definition has_char (c : N) (s : jsstring) : bool := existsb (N.eqb c) s.

(** Text without markup: no [<] that could open a tag and no [&] that
    could open a character reference.  These are the two characters
    that HTML and XML reserve as markup delimiters. *)
Definition no_markup (s : jsstring) : Prop :=
  has_char LT_SIGN s = false /\ has_char AMPERSAND s = false.











(** The one console line a publish attempt ends with. *)
Definition publishOutcome (r : Error + Response) : Event :=
  match r with
  | inl e => ConsoleError (js "Error publishing to Mastodon:") e
  | inr response =>
      if ok response then
        ConsoleLog (js "Post published successfully to Mastodon.")
      else
        match text response with
        | inl e => ConsoleError (js "Error publishing to Mastodon:") e
        | inr errorText =>
            ConsoleError (js "Error publishing to Mastodon:")
              (mkError (js "Mastodon API Error: " ++ errorText))
        end
  end.

(** Whether the loop passes over a post without publishing it: it is
    older than the window, or the ledger read succeeds and yields the
    post's own link. *)
Definition isSkipped (P : Platform) (thirtyMinutesAgoUTC : timeValue)
    (post : Post) (w : World) : bool :=
  date_lt (pubDateUTC post) thirtyMinutesAgoUTC
  || match kv_get_rejects P (trace w) LAST_POST_KEY with
     | None => bool_decide (kv w !! LAST_POST_KEY = Some (link post))
     | Some _ => false
     end.

(** The literal every match of a pattern starts with, where the pattern
    fixes one. *)
Fixpoint first_char (r : regex) : option N :=
  match r with
  | Char c => Some c
  | CharI c =>
      if (c <? 65) || ((90 <? c) && (c <? 97)) || (122 <? c)
      then Some c else None
  | Seq r1 _ => first_char r1
  | Group _ r1 => first_char r1
  | _ => None
  end.

(** The world after the loop of a cycle has handled [posts]. *)
Definition cycleAfter (P : Platform) (env : Env) (posts : list Post)
    (w : World) : World :=
  snd (processPostsRecursively P posts env w).

(** The feed could not be fetched: the transport failed, or the
    response is not a success. *)
Definition feedFails (P : Platform) (url : jsstring) : bool :=
  match feed P url with
  | inl _ => true
  | inr response => negb (ok response)
  end.

(** Sample inputs. *)
Definition quoted (s : jsstring) : jsstring := [QUOTE] ++ s ++ [QUOTE].

(** An image tag with a source and no alternative text. *)
Definition imgWithoutAlt : jsstring :=
  js "<img src=" ++ quoted (js "http://x.test/i.png") ++ js ">".

Definition imgWithoutAltNode : Dom.Node :=
  Dom.ElementNode (js "BODY") []
    [Dom.ElementNode (js "IMG") [(js "src", js "http://x.test/i.png")] []].



(** A feed whose only item carries no [pubDate]. *)
Definition undatedFeed : jsstring :=
  js "<rss><channel><item><link>https://blog.test/1</link><description>Hello</description></item></channel></rss>".

(** *** Vocabulary of the further properties *)

Definition isKvAccess (e : Event) : bool :=
  match e with KvGet _ | KvPut _ _ => true | _ => false end.

(** The reads and writes of the key-value namespace, in order. *)
Definition kvAccesses (t : list Event) : list Event :=
  List.filter isKvAccess t.

Definition isFetchGet (e : Event) : bool :=
  match e with FetchGet _ => true | _ => false end.

(** The requests for the feed, in order. *)
Definition feedRequests (t : list Event) : list Event :=
  List.filter isFetchGet t.

(** A post the recency test lets through. *)
Definition notOld (thirtyMinutesAgoUTC : timeValue) (post : Post) : bool :=
  negb (date_lt (pubDateUTC post) thirtyMinutesAgoUTC).

(** The link the ledger holds after the posts of [published] were
    recorded one after the other over [before]. *)
Definition lastLink (published : list Post) (before : option jsstring)
    : option jsstring :=
  match last published with
  | Some post => Some (link post)
  | None => before
  end.

(** The key-value namespace rejects every read. *)
Definition storeDownPlatform : Platform :=
  {| URL_valid := fun _ => true;
     Date_parse := fun _ => None;
     Date_now := fun _ => t0;
     feed := fun _ => inr (okResponse []);
     post_status := fun _ _ _ => inr (okResponse (js "{}"));
     kv_get_rejects := fun _ _ => Some (mkError (js "KV unavailable"));
     kv_put_rejects := fun _ _ _ => None |}.

(** The configured feed URL is not a URL. *)
Definition badUrlPlatform : Platform :=
  {| URL_valid := fun _ => false;
     Date_parse := fun _ => None;
     Date_now := fun _ => t0;
     feed := fun _ => inr (okResponse []);
     post_status := fun _ _ _ => inr (okResponse (js "{}"));
     kv_get_rejects := fun _ _ => None;
     kv_put_rejects := fun _ _ _ => None |}.

(** The posts a cycle publishes when the key-value namespace works:
    each post that is not old and whose link is not the one the ledger
    holds at its turn; a selected post's link then is the ledger's. *)
Fixpoint selectPosts (thirtyMinutesAgoUTC : timeValue)
    (ledger : option jsstring) (posts : list Post) : list Post :=
  match posts with
  | [] => []
  | post :: rest =>
      if date_lt (pubDateUTC post) thirtyMinutesAgoUTC
         || bool_decide (ledger = Some (link post))
      then selectPosts thirtyMinutesAgoUTC ledger rest
      else post :: selectPosts thirtyMinutesAgoUTC (Some (link post)) rest
  end.

(** A text opens with a code unit that [trim] removes. *)
Definition opensWithSpace (s : jsstring) : bool :=
  match s with
  | c :: _ => isTrimmed c
  | [] => false
  end.

(** A tag starts at the head of [t]: a [<], at least one code unit
    other than [>], and a [>] somewhere behind. *)
Definition tag_at (t : jsstring) : bool :=
  match t with
  | x :: c :: t' =>
      (x =? LT_SIGN) && negb (c =? GT_SIGN) && has_char GT_SIGN t'
  | _ => false
  end.

(** A tag starts somewhere in [s]. *)
Fixpoint has_tag (s : jsstring) : bool :=
  match s with
  | [] => false
  | _ :: s' => tag_at s || has_tag s'
  end.

(** Every match of the pattern contains the literal [c]. *)
Fixpoint requires_char (c : N) (r : regex) : bool :=
  match r with
  | Char c' => c' =? c
  | CharI c' =>
      (c' =? c) && ((c <? 65) || ((90 <? c) && (c <? 97)) || (122 <? c))
  | Seq r1 r2 => requires_char c r1 || requires_char c r2
  | Alt r1 r2 => requires_char c r1 && requires_char c r2
  | Group _ r1 => requires_char c r1
  | _ => false
  end.

(** No capture contains the code unit [c]. *)
Definition caps_free (c : N) (cs : captures) : Prop :=
  Forall (fun p => has_char c (snd p) = false) cs.

(** [pat] stands at the head of [s], the case of ASCII letters apart. *)
Fixpoint prefix_ci (pat s : jsstring) : bool :=
  match pat, s with
  | [], _ => true
  | p :: pat', c :: s' =>
      (canonicalize c =? canonicalize p) && prefix_ci pat' s'
  | _ :: _, [] => false
  end.

(** [pat] occurs somewhere in [s], the case of ASCII letters apart. *)
Fixpoint occurs_ci (pat s : jsstring) : bool :=
  match s with
  | [] => prefix_ci pat []
  | _ :: s' => prefix_ci pat s || occurs_ci pat s'
  end.

(** The element names the worker looks for. *)
Definition feedTags : list string :=
  ["item"; "description"; "link"; "pubDate"]%string.

(** The start of an opening tag, and a closing tag. *)
Definition openTag (tagName : string) : jsstring := [LT_SIGN] ++ js tagName.

Definition closeTag (tagName : string) : jsstring :=
  js "</" ++ js tagName ++ [GT_SIGN].

(** An element as it stands in a feed. *)
Definition xmlElement (tagName : string) (attrs body : jsstring) : jsstring :=
  openTag tagName ++ attrs ++ [GT_SIGN] ++ body ++ closeTag tagName.

(** One item of a feed: its element, and the text that follows it up
    to the next item. *)
Record ItemBlock : Type := mkItemBlock {
  itemAttrs : jsstring;
  itemBody : jsstring;
  itemGap : jsstring
}.

Definition renderItemBlock (b : ItemBlock) : jsstring :=
  xmlElement "item" (itemAttrs b) (itemBody b) ++ itemGap b.

Definition wellFormedItemBlock (b : ItemBlock) : Prop :=
  has_char GT_SIGN (itemAttrs b) = false /\
  occurs_ci (closeTag "item") (itemBody b) = false /\
  occurs_ci (openTag "item") (itemGap b) = false.

(** A hyperlink as the anchor pass expects it: [<a], attributes, the
    quoted [href], [>], the link text, [</a>]. *)
Definition anchorTag (attrs url linkText : jsstring) : jsstring :=
  js "<a" ++ attrs ++ js "href=" ++ quoted url ++ js ">" ++ linkText
  ++ js "</a>".

(** An image as the image pass expects it: [<img], attributes, the
    quoted [alt], a blank, the quoted [src], [>]. *)
Definition imgTag (attrs alt src : jsstring) : jsstring :=
  js "<img" ++ attrs ++ js "alt=" ++ quoted alt ++ js " src=" ++ quoted src
  ++ js ">".

(** Text that can stand inside a tag: no [<], no [>], no [&]. *)
Definition tagFree (s : jsstring) : Prop :=
  has_char LT_SIGN s = false /\ has_char GT_SIGN s = false /\
  has_char AMPERSAND s = false.

(** Text that can stand between the quotes of an attribute. *)
Definition attrValue (s : jsstring) : Prop :=
  tagFree s /\ has_char QUOTE s = false.

(** The request that publishes a post. *)
Definition publishRequest (env : Env) (post : Post) : Event :=
  FetchPost (MASTODON_INSTANCE env ++ js "/api/v1/statuses")
    (js "Bearer " ++ ACCESS_TOKEN env) (description post) (js "public").

(** The events that deliver posts: the calls to the posting API and
    the writes to the namespace, in the order they happened. *)
Definition isDelivery (e : Event) : bool :=
  isPublishCall e || isLedgerWrite e.

Definition deliveries (t : list Event) : list Event :=
  List.filter isDelivery t.

(** What publishing one post adds to them: the request with the post's
    description, then the write of the post's link. *)
Definition delivery (env : Env) (post : Post) : list Event :=
  [publishRequest env post; KvPut LAST_POST_KEY (link post)].

(** The posts a cycle reads from the feed; none when the feed cannot
    be had. *)
Definition cyclePosts (P : Platform) (env : Env) (w : World) : list Post :=
  match fst (fetchAllPosts P (RSS_FEED_URL env) w) with
  | inr posts => posts
  | inl _ => []
  end.

(** *** Character references in a text *)

(** The references [decodeHtmlEntities] replaces by a literal pattern,
    in the order of its passes, each with what it puts in its place. *)
Definition namedReferences : list (string * jsstring) :=
  [("&lt;", js "<"); ("&gt;", js ">"); ("&amp;", js "&");
   ("&quot;", [QUOTE]); ("&#39;", js "'"); ("&rsquo;", [0x2019]);
   ("&lsquo;", [0x2018]); ("&ldquo;", [0x201C]); ("&rdquo;", [0x201D]);
   ("&mdash;", [0x2014]); ("&ndash;", [0x2013]); ("&copy;", [0xA9]);
   ("&reg;", [0xAE]); ("&euro;", [0x20AC]); ("&pound;", [0xA3]);
   ("&yen;", [0xA5]); ("&times;", [0xD7]); ("&divide;", [0xF7])]%string.












(* ===================================================================== *)
(** ** Lemmas on strings and patterns                                     *)
(* ===================================================================== *)

Lemma has_char_cons c x s :
  has_char c (x :: s) = false <-> x <> c /\ has_char c s = false.
Proof.
  unfold has_char; simpl. rewrite orb_false_iff, N.eqb_neq.
  split; intros [H1 H2]; split; auto.
Qed.

Lemma has_char_app c s1 s2 :
  has_char c (s1 ++ s2) = false <->
  has_char c s1 = false /\ has_char c s2 = false.
Proof.
  unfold has_char. rewrite existsb_app, orb_false_iff. tauto.
Qed.

Lemma has_char_rev c s : has_char c (rev s) = has_char c s.
Proof.
  induction s as [|x s IH]; [reflexivity|].
  simpl rev. destruct (has_char c (x :: s)) eqn:E.
  - apply not_false_iff_true. rewrite has_char_app, IH. intros [H1 H2].
    apply has_char_cons in H2 as [H2 _].
    unfold has_char in E; simpl in E. apply orb_true_iff in E as [E|E].
    + apply N.eqb_eq in E. congruence.
    + unfold has_char in H1. congruence.
  - apply has_char_cons in E as [E1 E2].
    apply has_char_app. rewrite IH. split; [assumption|].
    apply has_char_cons. split; [assumption | reflexivity].
Qed.

Lemma first_char_None_on_other {R} r c (k : jsstring -> captures -> option R)
    x s cs :
  first_char r = Some c -> x <> c -> matcher r k (x :: s) cs = None.
Proof.
  revert k cs. induction r; intros k cs Hf Hx; simpl in *; try discriminate.
  - injection Hf as ->. apply N.eqb_neq in Hx. now rewrite Hx.
  - destruct ((c0 <? 65) || (90 <? c0) && (c0 <? 97) || (122 <? c0)) eqn:E;
      [|discriminate].
    injection Hf as ->.
    assert (canonicalize c = c) as Hc.
    { unfold canonicalize.
      destruct ((97 <=? c) && (c <=? 122)) eqn:E2; [|reflexivity].
      apply andb_true_iff in E2 as [E2 E3].
      apply N.leb_le in E2, E3.
      apply orb_true_iff in E as [E|E];
        [apply orb_true_iff in E as [E|E]|].
      - apply N.ltb_lt in E. lia.
      - apply andb_true_iff in E as [_ E]. apply N.ltb_lt in E. lia.
      - apply N.ltb_lt in E. lia. }
    rewrite Hc.
    destruct (canonicalize x =? c) eqn:E2; [|reflexivity].
    exfalso. apply N.eqb_eq in E2. unfold canonicalize in E2.
    destruct ((97 <=? x) && (x <=? 122)) eqn:E3; [|congruence].
    apply andb_true_iff in E3 as [E3 E4]. apply N.leb_le in E3, E4.
    apply orb_true_iff in E as [E|E];
      [apply orb_true_iff in E as [E|E]|].
    + apply N.ltb_lt in E. lia.
    + apply andb_true_iff in E as [E E']. apply N.ltb_lt in E, E'. lia.
    + apply N.ltb_lt in E. lia.
  - now apply IHr1.
  - now apply IHr.
Qed.

Lemma first_char_None_on_empty {R} r c (k : jsstring -> captures -> option R)
    cs :
  first_char r = Some c -> matcher r k [] cs = None.
Proof.
  revert k cs. induction r; intros k cs Hf; simpl in *; try discriminate;
    auto.
Qed.

(** A pattern that starts with a literal leaves a text without that
    literal as it is. *)
Lemma replace_all_absent r c f s :
  first_char r = Some c -> has_char c s = false -> replace_all r f s = s.
Proof.
  intros Hf. unfold replace_all.
  induction s as [|x s IH]; intros Hs; cbn [replace_from].
  - unfold match_here. now rewrite (first_char_None_on_empty r c).
  - apply has_char_cons in Hs as [Hx Hs].
    unfold match_here at 1.
    rewrite (first_char_None_on_other r c) by assumption.
    now rewrite IH.
Qed.

Lemma replace_from_skip r f m rest :
  replace_from r f (length m) (m ++ rest) = replace_from r f O rest.
Proof.
  induction m as [|x m IH]; simpl; [reflexivity | assumption].
Qed.

(** At a match, the replacement is put out and the scan goes on behind
    the match. *)
Lemma replace_all_match r f m rest cs :
  m <> [] -> match_here r (m ++ rest) = Some (rest, cs) ->
  replace_all r f (m ++ rest) = f cs m ++ replace_all r f rest.
Proof.
  intros Hm Hmatch. unfold replace_all.
  destruct m as [|x m]; [congruence|].
  change ((x :: m) ++ rest) with (x :: (m ++ rest)) in *.
  cbn [replace_from]. rewrite Hmatch.
  replace (length (x :: m ++ rest) - length rest)%nat with (S (length m))
    by (simpl; rewrite length_app; lia).
  cbn [take]. rewrite take_app_length.
  now rewrite replace_from_skip.
Qed.

Lemma replace_all_no_match r f x s :
  match_here r (x :: s) = None ->
  replace_all r f (x :: s) = x :: replace_all r f s.
Proof. intros H. unfold replace_all. cbn [replace_from]. now rewrite H. Qed.

(** A greedy [[^c]*] runs up to the first [c] when the rest of the
    pattern matches there. *)
Lemma star_greedy_upto {R} c (k : jsstring -> option R) xs rest v :
  has_char c xs = false -> k (c :: rest) = Some v ->
  star_greedy (not_char c) k (xs ++ c :: rest) = Some v.
Proof.
  intros Hxs Hk. induction xs as [|x xs IH]; simpl.
  - unfold not_char. now rewrite N.eqb_refl.
  - apply has_char_cons in Hxs as [Hx Hxs].
    unfold not_char at 1. apply N.eqb_neq in Hx. rewrite Hx. simpl.
    now rewrite IH.
Qed.

Lemma replace_all_prefix r c f a s :
  first_char r = Some c -> has_char c a = false ->
  replace_all r f (a ++ s) = a ++ replace_all r f s.
Proof.
  intros Hf. induction a as [|x a IH]; intros Ha; [reflexivity|].
  apply has_char_cons in Ha as [Hx Ha].
  change ((x :: a) ++ s) with (x :: (a ++ s)).
  rewrite replace_all_no_match.
  - now rewrite IH.
  - unfold match_here. now apply (first_char_None_on_other r c).
Qed.

(** *** [trim] *)

Lemma trimStart_idem s : trimStart (trimStart s) = trimStart s.
Proof.
  induction s as [|x s IH]; simpl; [reflexivity|].
  destruct (isTrimmed x) eqn:E; [assumption|].
  simpl. now rewrite E.
Qed.

Lemma trimStart_keeps_last l x :
  isTrimmed x = false -> exists l', trimStart (l ++ [x]) = l' ++ [x].
Proof.
  intros Hx. induction l as [|y l IH]; simpl.
  - rewrite Hx. now exists [].
  - destruct (isTrimmed y); [assumption|]. now exists (y :: l).
Qed.

Lemma trimStart_head s :
  trimStart s = [] \/
  exists x t, trimStart s = x :: t /\ isTrimmed x = false.
Proof.
  induction s as [|x s IH]; simpl; [now left|].
  destruct (isTrimmed x) eqn:E; [assumption|].
  right. now exists x, s.
Qed.

Lemma trimEnd_idem_on u :
  (u = [] \/ exists x t, u = x :: t /\ isTrimmed x = false) ->
  trimEnd (trimStart (trimEnd u)) = trimEnd u.
Proof.
  unfold trimEnd. intros [-> | (x & t & -> & Hx)]; [reflexivity|].
  simpl rev.
  destruct (trimStart_keeps_last (rev t) x Hx) as [l' El].
  rewrite El.
  assert (trimStart (rev (l' ++ [x])) = rev (l' ++ [x])) as ->.
  { rewrite rev_app_distr. simpl. now rewrite Hx. }
  rewrite rev_involutive. f_equal.
  rewrite <- El. apply trimStart_idem.
Qed.

Lemma trim_idem s : trim (trim s) = trim s.
Proof. unfold trim. apply trimEnd_idem_on, trimStart_head. Qed.

Lemma has_char_trimStart c s :
  has_char c s = false -> has_char c (trimStart s) = false.
Proof.
  induction s as [|x s IH]; simpl; [auto|]. intros H.
  destruct (isTrimmed x); [|assumption].
  apply has_char_cons in H as [_ H]. auto.
Qed.

Lemma has_char_trim c s : has_char c s = false -> has_char c (trim s) = false.
Proof.
  intros H. unfold trim, trimEnd. rewrite has_char_rev.
  apply has_char_trimStart. rewrite has_char_rev.
  now apply has_char_trimStart.
Qed.

(** *** The passes on text without markup *)

Lemma decodeHtmlEntities_plain s :
  has_char AMPERSAND s = false -> decodeHtmlEntities s = s.
Proof.
  intros H. unfold decodeHtmlEntities, replace_lit. cbv zeta.
  repeat (rewrite (replace_all_absent _ AMPERSAND _ s) by (reflexivity || assumption)).
  reflexivity.
Qed.

Lemma structuralPasses_plain s :
  has_char LT_SIGN s = false -> structuralPasses s = trim s.
Proof.
  intros H. unfold structuralPasses. cbv zeta.
  repeat (rewrite (replace_all_absent _ LT_SIGN _ s) by (reflexivity || assumption)).
  reflexivity.
Qed.

Lemma convertHtmlToText_plain s :
  no_markup s -> convertHtmlToText s = trim s.
Proof.
  intros [Hlt Hamp]. unfold convertHtmlToText. cbv zeta.
  rewrite decodeHtmlEntities_plain by assumption.
  now apply structuralPasses_plain.
Qed.

(** *** Block tags *)






(* ===================================================================== *)
(** ** Lemmas on the pipeline                                             *)
(* ===================================================================== *)

Arguments js : simpl never.
Arguments publishOutcome : simpl never.

Ltac unfold_monad :=
  unfold console_log, console_error, lift_result, try_catch, bind, ret,
    throw, emit, history in *.

(** What one ledger read does. *)
Lemma isPostAlreadyPublished_run P link w :
  isPostAlreadyPublished P link w =
  match kv_get_rejects P (trace w) LAST_POST_KEY with
  | None =>
      (inr (bool_decide (kv w !! LAST_POST_KEY = Some link)),
       {| kv := kv w; trace := trace w ++ [KvGet LAST_POST_KEY] |})
  | Some e =>
      (inr false,
       {| kv := kv w;
          trace := trace w ++
            [KvGet LAST_POST_KEY;
             ConsoleError
               (js "Error checking if post has already been published:") e] |})
  end.
Proof.
  unfold isPostAlreadyPublished, kv_get. unfold_monad. simpl.
  destruct (kv_get_rejects P (trace w) LAST_POST_KEY); simpl.
  all: rewrite <- ?app_assoc; reflexivity.
Qed.

(** What one ledger write does. *)
Lemma savePublishedPost_run P link w :
  savePublishedPost P link w =
  match kv_put_rejects P (trace w) LAST_POST_KEY link with
  | None =>
      (inr tt,
       {| kv := <[LAST_POST_KEY := link]> (kv w);
          trace := trace w ++ [KvPut LAST_POST_KEY link] |})
  | Some e =>
      (inr tt,
       {| kv := kv w;
          trace := trace w ++
            [KvPut LAST_POST_KEY link;
             ConsoleError (js "Error saving the published post link:") e] |})
  end.
Proof.
  unfold savePublishedPost, kv_put. unfold_monad. simpl.
  destruct (kv_put_rejects P (trace w) LAST_POST_KEY link); simpl.
  all: rewrite <- ?app_assoc; reflexivity.
Qed.

(** What one publish attempt does: whatever the posting API answers,
    the call returns. *)
Lemma publishToMastodon_run P content mastodonInstance accessToken w :
  publishToMastodon P content mastodonInstance accessToken w =
  (inr tt,
   {| kv := kv w;
      trace := trace w ++
        [FetchPost (mastodonInstance ++ js "/api/v1/statuses")
           (js "Bearer " ++ accessToken) content (js "public");
         publishOutcome
           (post_status P (trace w)
              (mastodonInstance ++ js "/api/v1/statuses") content)] |}).
Proof.
  unfold publishToMastodon, fetch_post. unfold_monad. simpl.
  destruct (post_status P (trace w) _ content) as [e|[o st [e|body]]];
    simpl; [|destruct o; simpl..]; rewrite <- ?app_assoc; reflexivity.
Qed.

Lemma publishOutcome_quiet r :
  isPublishCall (publishOutcome r) = false /\
  isLedgerWrite (publishOutcome r) = false.
Proof.
  unfold publishOutcome.
  destruct r as [e|[o st [e|body]]]; simpl; [|destruct o..]; auto.
Qed.

Lemma publishCalls_app t1 t2 :
  publishCalls (t1 ++ t2) = publishCalls t1 ++ publishCalls t2.
Proof. apply List.filter_app. Qed.

Lemma ledgerWrites_app t1 t2 :
  ledgerWrites (t1 ++ t2) = ledgerWrites t1 ++ ledgerWrites t2.
Proof. apply List.filter_app. Qed.

Lemma publishedBodies_app t1 t2 :
  publishedBodies (t1 ++ t2) = publishedBodies t1 ++ publishedBodies t2.
Proof. apply flat_map_app. Qed.

Lemma publishOutcome_no_body r :
  match publishOutcome r with
  | FetchPost _ _ status _ => [status]
  | _ => []
  end = [].
Proof.
  unfold publishOutcome.
  destruct r as [e|[o st [e|body]]]; simpl; [|destruct o..]; auto.
Qed.

Ltac trace_simpl :=
  rewrite ?publishCalls_app, ?ledgerWrites_app, ?publishedBodies_app;
  cbn [publishCalls ledgerWrites publishedBodies List.filter flat_map
       isPublishCall isLedgerWrite app];
  rewrite ?(proj1 (publishOutcome_quiet _)),
    ?(proj2 (publishOutcome_quiet _)), ?publishOutcome_no_body;
  cbn [app]; rewrite ?app_nil_r.

Lemma isPostAlreadyPublished_shape P link w :
  exists t1,
    isPostAlreadyPublished P link w =
      (inr match kv_get_rejects P (trace w) LAST_POST_KEY with
           | None => bool_decide (kv w !! LAST_POST_KEY = Some link)
           | Some _ => false
           end,
       {| kv := kv w; trace := trace w ++ t1 |}) /\
    publishCalls t1 = [] /\ publishedBodies t1 = [] /\ ledgerWrites t1 = [].
Proof.
  rewrite isPostAlreadyPublished_run.
  destruct (kv_get_rejects P (trace w) LAST_POST_KEY);
    eexists; (split; [reflexivity|]); repeat split.
Qed.

(** A skipped post: nothing is published, nothing is written. *)
Lemma processPost_skipped P env thirty post w :
  isSkipped P thirty post w = true ->
  exists w',
    processPost P env thirty post w = (inr tt, w') /\
    kv w' = kv w /\
    publishCalls (trace w') = publishCalls (trace w) /\
    publishedBodies (trace w') = publishedBodies (trace w) /\
    ledgerWrites (trace w') = ledgerWrites (trace w).
Proof.
  unfold isSkipped, processPost. intros H.
  destruct (date_lt (pubDateUTC post) thirty) eqn:Eold.
  - unfold_monad. simpl. eexists. split; [reflexivity|]. simpl.
    repeat split; trace_simpl; reflexivity.
  - simpl in H. unfold try_catch, bind at 1.
    destruct (isPostAlreadyPublished_shape P (link post) w)
      as (t1 & -> & Hc & Hb & Hl).
    rewrite H. unfold_monad. simpl. eexists. split; [reflexivity|]. simpl.
    repeat split; trace_simpl; rewrite ?Hc, ?Hb, ?Hl, ?app_nil_r; reflexivity.
Qed.

(** A post that is not skipped: one publish call with its description,
    then one ledger write with its link, whatever the posting API
    answered. *)
Lemma processPost_published P env thirty post w :
  isSkipped P thirty post w = false ->
  exists w',
    processPost P env thirty post w = (inr tt, w') /\
    publishedBodies (trace w') = publishedBodies (trace w) ++ [description post] /\
    ledgerWrites (trace w') =
      ledgerWrites (trace w) ++ [KvPut LAST_POST_KEY (link post)] /\
    (kv w' = kv w \/ kv w' = <[LAST_POST_KEY := link post]> (kv w)).
Proof.
  unfold isSkipped, processPost. intros H.
  apply orb_false_iff in H as [Eold H]. rewrite Eold.
  unfold try_catch, bind at 1.
  destruct (isPostAlreadyPublished_shape P (link post) w)
    as (t1 & -> & Hc & Hb & Hl).
  rewrite H.
  unfold bind at 1. unfold console_log at 1, emit at 1.
  unfold bind at 1. rewrite publishToMastodon_run.
  unfold bind at 1. rewrite savePublishedPost_run.
  cbn [kv trace].
  destruct (kv_put_rejects P _ LAST_POST_KEY (link post)); unfold_monad;
    cbn [kv trace]; eexists; (split; [reflexivity|]); cbn [kv trace].
  all: rewrite <- ?app_assoc.
  all: repeat split; trace_simpl; rewrite ?Hb, ?Hl; auto.
Qed.

Lemma processPost_returns P env thirty post w :
  fst (processPost P env thirty post w) = inr tt.
Proof.
  destruct (isSkipped P thirty post w) eqn:E.
  - destruct (processPost_skipped P env thirty post w E) as (w' & -> & _).
    reflexivity.
  - destruct (processPost_published P env thirty post w E) as (w' & -> & _).
    reflexivity.
Qed.

Lemma for_of_processPost_app P env thirty l1 l2 w :
  for_of (l1 ++ l2) (processPost P env thirty) w =
  for_of l2 (processPost P env thirty)
    (snd (for_of l1 (processPost P env thirty) w)).
Proof.
  revert w. induction l1 as [|x l1 IH]; intros w; [reflexivity|].
  cbn [app for_of]. unfold bind.
  pose proof (processPost_returns P env thirty x w) as Hx.
  destruct (processPost P env thirty x w) as [[e|[]] w1];
    simpl in Hx; [discriminate|].
  apply IH.
Qed.

Lemma for_of_processPost_single P env thirty x w :
  snd (for_of [x] (processPost P env thirty) w)
  = snd (processPost P env thirty x w).
Proof.
  cbn [for_of]. unfold bind, ret.
  pose proof (processPost_returns P env thirty x w) as Hx.
  destruct (processPost P env thirty x w) as [[e|[]] w1];
    simpl in Hx; [discriminate|]. reflexivity.
Qed.

(** While only old posts and posts with the recorded link pass by, the
    ledger keeps that link. *)
Lemma ledger_kept P env thirty l mid w :
  kv w !! LAST_POST_KEY = Some l ->
  Forall (fun m => date_lt (pubDateUTC m) thirty = true \/ link m = l) mid ->
  kv (snd (for_of mid (processPost P env thirty) w)) !! LAST_POST_KEY = Some l.
Proof.
  intros Hw Hmid. revert w Hw.
  induction Hmid as [|m mid Hm _ IH]; intros w Hw; [assumption|].
  cbn [for_of]. unfold bind.
  destruct (isSkipped P thirty m w) eqn:E.
  - destruct (processPost_skipped P env thirty m w E)
      as (w' & -> & Hkv & _).
    apply IH. now rewrite Hkv.
  - destruct (processPost_published P env thirty m w E)
      as (w' & -> & _ & _ & Hkv).
    apply IH. destruct Hkv as [-> | ->]; [assumption|].
    destruct Hm as [Hm | <-].
    + unfold isSkipped in E. rewrite Hm in E. discriminate.
    + apply lookup_insert_eq.
Qed.

(** For a post with a valid date, the recency test is the comparison
    with the start of the window, the boundary included. *)
Lemma recent_iff_in_window (nowUTC publishedAt : Z) :
  (Z.abs (nowUTC - 30 * 60 * 1000) <= 8640000000000000)%Z ->
  date_lt (Some publishedAt) (thirtyMinutesAgo nowUTC) = false <->
  (nowUTC - 30 * 60 * 1000 <= publishedAt)%Z.
Proof.
  intros Hclip. unfold thirtyMinutesAgo, timeClip.
  apply Z.leb_le in Hclip. rewrite Hclip. simpl date_lt.
  rewrite Z.ltb_ge. reflexivity.
Qed.

(** Entity-encoded text is not a fixed point: decoding one layer of
    [&amp;amp;] leaves [&amp;], which the next application decodes
    again. *)
Remark encoded_ampersand_decodes_twice :
  convertHtmlToText (js "&amp;amp;") = js "&amp;" /\
  convertHtmlToText (convertHtmlToText (js "&amp;amp;")) = js "&".
Proof. split; vm_compute; reflexivity. Qed.

(** The conversions on small inputs. *)
Example hyperlink_conversion :
  convertHtmlToText
    (js "<a href=" ++ quoted (js "http://x.test") ++ js ">click</a>")
  = js "click (http://x.test)".
Proof. vm_compute. reflexivity. Qed.

Example image_with_alt_before_src :
  convertHtmlToText
    (js "<img alt=" ++ quoted (js "logo") ++ js " src="
     ++ quoted (js "http://x.test/i.png") ++ js ">")
  = js "[logo] (http://x.test/i.png)".
Proof. vm_compute. reflexivity. Qed.

(** A cycle over a recent and an old post: one publish call, for the
    recent one, whose link is then in the ledger. *)
Example recent_published_old_skipped :
  publishedBodies
    (trace (cycleAfter (calmPlatform []) env0 [postA; postOld] emptyWorld))
  = [description postA] /\
  kv (cycleAfter (calmPlatform []) env0 [postA; postOld] emptyWorld)
    !! LAST_POST_KEY = Some (link postA).
Proof. split; vm_compute; reflexivity. Qed.

(* ===================================================================== *)
(** ** The claims                                                         *)
(* ===================================================================== *)

(** C1 (the code departs from the claim): the ledger is to be written
    only after a confirmed successful publish.  Here the posting API
    answers the one publish call with a non-success response, and the
    link of the post is written to the ledger all the same:
    [publishToMastodon] catches its own error, so the loop goes on to
    [savePublishedPost]. *)
Theorem failed_publish_is_recorded :
  let w' := snd (processPostsRecursively refusingPlatform [postA] env0
                   emptyWorld) in
  publishCalls (trace w') =
    [FetchPost (js "https://social.test/api/v1/statuses")
       (js "Bearer token") (js "first") (js "public")] /\
  (forall h url status,
     exists r, post_status refusingPlatform h url status = inr r /\
               ok r = false) /\
  ledgerWrites (trace w') = [KvPut LAST_POST_KEY (js "A")] /\
  kv w' !! LAST_POST_KEY = Some (js "A").
Proof.
  cbv zeta. split; [|split; [|split]].
  - vm_compute. reflexivity.
  - intros h url status. eexists. split; reflexivity.
  - vm_compute. reflexivity.
  - vm_compute. reflexivity.
Qed.

(** C2 (the code departs from the claim): the publish operation is to
    fail, observably for its caller, exactly when the response is not a
    success.  In the code it returns normally for every body, base URL
    and token and whatever the posting API answers: the error it
    raises on a non-success response is caught inside the function and
    only logged. *)
Theorem publishToMastodon_never_throws P content mastodonInstance accessToken w :
  fst (publishToMastodon P content mastodonInstance accessToken w) = inr tt.
Proof. rewrite publishToMastodon_run. reflexivity. Qed.

(** C3 (the code departs from the claim): an item with an invalid or
    missing publish date is to be excluded.  The comparison of an
    Invalid Date with the start of the window is false, so such a post
    is not skipped: it is published, both when handed to the loop and
    when it comes from a feed item without [pubDate]. *)
Theorem undated_post_is_published :
  date_lt (pubDateUTC postUndated) (thirtyMinutesAgo t0) = false /\
  publishedBodies
    (trace (snd (processPostsRecursively (calmPlatform []) [postUndated]
                   env0 emptyWorld)))
  = [js "undated"] /\
  publishedBodies
    (trace (snd (processLatestPosts (calmPlatform undatedFeed) env0
                   emptyWorld)))
  = [js "Hello" ++ [LF; LF]
     ++ js "This post was first seen on https://blog.test/1"].
Proof. split; [|split]; vm_compute; reflexivity. Qed.

(** C4: when the feed cannot be fetched (a transport failure or a
    non-success status), the cycle ends without an error reaching its
    caller, no publish call is issued, nothing is written to the ledger
    and its state is unchanged. *)
Theorem failed_fetch_aborts_cycle P env w :
  feedFails P (RSS_FEED_URL env) = true ->
  exists w',
    processLatestPosts P env w = (inr tt, w') /\
    kv w' = kv w /\
    publishCalls (trace w') = publishCalls (trace w) /\
    ledgerWrites (trace w') = ledgerWrites (trace w).
Proof.
  unfold feedFails, processLatestPosts, fetchAllPosts, fetch_get.
  intros Hfeed.
  destruct (URL_valid P (RSS_FEED_URL env)); cbn [negb].
  - unfold_monad. cbn [kv trace].
    destruct (feed P (RSS_FEED_URL env)) as [e|response].
    + cbn [kv trace]. eexists. split; [reflexivity|]. cbn [kv trace].
      rewrite <- ?app_assoc. repeat split; trace_simpl; reflexivity.
    + apply negb_true_iff in Hfeed. rewrite Hfeed. cbn [negb kv trace].
      eexists. split; [reflexivity|]. cbn [kv trace].
      rewrite <- ?app_assoc. repeat split; trace_simpl; reflexivity.
  - unfold_monad. cbn [kv trace].
    eexists. split; [reflexivity|]. cbn [kv trace].
    rewrite <- ?app_assoc. repeat split; trace_simpl; reflexivity.
Qed.

Lemma failed_fetch_aborts_cycle_witness :
  exists w',
    processLatestPosts feedDownPlatform env0 (ledgerWorld (js "L1"))
      = (inr tt, w') /\
    kv w' = kv (ledgerWorld (js "L1")) /\
    publishCalls (trace w') = publishCalls (trace (ledgerWorld (js "L1"))) /\
    ledgerWrites (trace w') = ledgerWrites (trace (ledgerWorld (js "L1"))).
Proof.
  apply (failed_fetch_aborts_cycle feedDownPlatform env0
           (ledgerWorld (js "L1"))).
  reflexivity.
Defined.

(** C5: the ledger check returns true exactly when the stored
    [lastPublishedLink] equals the link; when the read of the store
    fails it returns false.  So, with a working read, a post whose link
    is the stored one is never published, whatever its date, and a
    recent post with another link is published. *)
Theorem alreadyPublished_reads_ledger P env thirty (post : Post)
    (link0 : jsstring) (w : World) :
  (kv_get_rejects P (trace w) LAST_POST_KEY = None ->
   fst (isPostAlreadyPublished P link0 w)
   = inr (bool_decide (kv w !! LAST_POST_KEY = Some link0))) /\
  (forall e,
     kv_get_rejects P (trace w) LAST_POST_KEY = Some e ->
     fst (isPostAlreadyPublished P link0 w) = inr false) /\
  (kv_get_rejects P (trace w) LAST_POST_KEY = None ->
   kv w !! LAST_POST_KEY = Some (link post) ->
   publishCalls (trace (snd (processPost P env thirty post w)))
   = publishCalls (trace w)) /\
  (kv_get_rejects P (trace w) LAST_POST_KEY = None ->
   kv w !! LAST_POST_KEY <> Some (link post) ->
   date_lt (pubDateUTC post) thirty = false ->
   publishedBodies (trace (snd (processPost P env thirty post w)))
   = publishedBodies (trace w) ++ [description post]).
Proof.
  split; [|split; [|split]].
  - intros Hread. rewrite isPostAlreadyPublished_run, Hread. reflexivity.
  - intros e Hread. rewrite isPostAlreadyPublished_run, Hread. reflexivity.
  - intros Hread Hkv.
    destruct (processPost_skipped P env thirty post w)
      as (w' & -> & _ & Hcalls & _); [|exact Hcalls].
    unfold isSkipped. rewrite Hread. apply orb_true_iff. right.
    now apply bool_decide_eq_true.
  - intros Hread Hkv Hrecent.
    destruct (processPost_published P env thirty post w)
      as (w' & -> & Hbodies & _); [|exact Hbodies].
    unfold isSkipped. rewrite Hread, Hrecent. cbn [orb].
    now apply bool_decide_eq_false.
Qed.

Lemma alreadyPublished_reads_ledger_witness :
  fst (isPostAlreadyPublished (calmPlatform []) (js "A")
         (ledgerWorld (js "A"))) = inr true /\
  publishCalls
    (trace (snd (processPost (calmPlatform []) env0
                   (thirtyMinutesAgo t0) postA (ledgerWorld (js "A")))))
  = [] /\
  publishedBodies
    (trace (snd (processPost (calmPlatform []) env0
                   (thirtyMinutesAgo t0) postB (ledgerWorld (js "A")))))
  = [js "second"].
Proof.
  destruct (alreadyPublished_reads_ledger (calmPlatform []) env0
              (thirtyMinutesAgo t0) postA (js "A") (ledgerWorld (js "A")))
    as (H1 & _ & H3 & _).
  destruct (alreadyPublished_reads_ledger (calmPlatform []) env0
              (thirtyMinutesAgo t0) postB (js "A") (ledgerWorld (js "A")))
    as (_ & _ & _ & H4).
  split; [|split].
  - rewrite H1 by reflexivity. vm_compute. reflexivity.
  - rewrite H3; [reflexivity | reflexivity | vm_compute; reflexivity].
  - rewrite H4; [reflexivity | reflexivity | | reflexivity].
    vm_compute. congruence.
Defined.

(* The claim on character references is settled further down, in the
   section on character references in context, after the lemmas it
   rests on. *)






(** The pattern of the block pass carries no [i] flag: a line break
    written in upper case is no block tag for it and goes with the
    tags that are stripped, while the walk over the parsed tree lowers
    the case of the name first. *)
Remark upper_case_break_is_stripped :
  convertHtmlToText (js "a<BR>b") = js "ab" /\
  Dom.convertHtmlToText
    (Dom.ElementNode (js "BODY") []
       [Dom.TextNode (js "a"); Dom.ElementNode (js "BR") [] [];
        Dom.TextNode (js "b")])
  = js "a" ++ [LF] ++ js "b".
Proof. split; vm_compute; reflexivity. Qed.

(** C8 (the code departs from the claim): an image with a source URL
    is to come out as its alternative text, or the word Image, in
    brackets, followed by the URL in parentheses.  The pattern of the
    image pass asks for an [alt] attribute before [src]; an image
    without [alt] does not match it and is removed by the pass that
    strips the remaining tags.  The formulation over the DOM tree
    gives the word Image. *)
Theorem image_without_alt_is_dropped :
  convertHtmlToText imgWithoutAlt = [] /\
  Plain.convertHtmlToText imgWithoutAlt = [] /\
  Dom.convertHtmlToText imgWithoutAltNode
  = js "[Image] (http://x.test/i.png)".
Proof. split; [|split]; vm_compute; reflexivity. Qed.

(** C9: on a string without markup, converting twice gives what
    converting once gives, with and without the entity decoding. *)
Theorem convertHtmlToText_idempotent_on_plain (s : jsstring) :
  no_markup s ->
  convertHtmlToText (convertHtmlToText s) = convertHtmlToText s /\
  Plain.convertHtmlToText (Plain.convertHtmlToText s)
  = Plain.convertHtmlToText s.
Proof.
  intros Hs.
  assert (no_markup (trim s)) as Ht.
  { destruct Hs. split; now apply has_char_trim. }
  split.
  - rewrite (convertHtmlToText_plain s Hs).
    rewrite (convertHtmlToText_plain (trim s) Ht). apply trim_idem.
  - unfold Plain.convertHtmlToText.
    rewrite (structuralPasses_plain s) by apply Hs.
    rewrite (structuralPasses_plain (trim s)) by apply Ht. apply trim_idem.
Qed.

Lemma convertHtmlToText_idempotent_on_plain_witness :
  convertHtmlToText (convertHtmlToText (js "  plain text, 2 > 1  "))
  = convertHtmlToText (js "  plain text, 2 > 1  ").
Proof.
  apply (convertHtmlToText_idempotent_on_plain (js "  plain text, 2 > 1  ")).
  split; reflexivity.
Defined.

(** C10, as stated, fails: the ledger holds one link only.  Post A is
    published and recorded, post B is then published and recorded in
    its place, and the later post with the link of A is published a
    second time in the same cycle. *)
Lemma duplicate_after_other_post_is_republished :
  kv (snd (processPostsRecursively (calmPlatform []) [postA] env0 emptyWorld))
    !! LAST_POST_KEY = Some (link postA) /\
  publishedBodies
    (trace (snd (processPostsRecursively (calmPlatform [])
                   [postA; postB; postA] env0 emptyWorld)))
  = [description postA; description postB; description postA].
Proof. split; vm_compute; reflexivity. Qed.

(** C10, amended: once a post's link is recorded in the ledger, a later
    post of the same cycle with that link is skipped by the ledger
    check and not published again, provided the read of the ledger for
    it succeeds and every post handled in between is either older than
    the window or bears that same link, so that no other link has
    replaced it. *)
Theorem duplicate_skipped_while_ledger_holds P env (p q : Post)
    (mid : list Post) (w : World) :
  kv (cycleAfter P env [p] w) !! LAST_POST_KEY = Some (link p) ->
  Forall (fun m =>
            date_lt (pubDateUTC m) (thirtyMinutesAgo (Date_now P (trace w)))
            = true
            \/ link m = link p) mid ->
  link q = link p ->
  kv_get_rejects P (trace (cycleAfter P env (p :: mid) w)) LAST_POST_KEY
  = None ->
  publishCalls (trace (cycleAfter P env (p :: mid ++ [q]) w))
  = publishCalls (trace (cycleAfter P env (p :: mid) w)) /\
  ledgerWrites (trace (cycleAfter P env (p :: mid ++ [q]) w))
  = ledgerWrites (trace (cycleAfter P env (p :: mid) w)) /\
  kv (cycleAfter P env (p :: mid ++ [q]) w)
  = kv (cycleAfter P env (p :: mid) w).
Proof.
  unfold cycleAfter, processPostsRecursively, bind, history.
  set (thirty := thirtyMinutesAgo (Date_now P (trace w))).
  intros Hrec Hmid Hq Hread.
  change (p :: mid ++ [q]) with ((p :: mid) ++ [q]).
  rewrite for_of_processPost_app, for_of_processPost_single.
  change (p :: mid) with ([p] ++ mid) in *.
  rewrite for_of_processPost_app in *.
  set (w2 := snd (for_of mid (processPost P env thirty)
                    (snd (for_of [p] (processPost P env thirty) w)))) in *.
  assert (kv w2 !! LAST_POST_KEY = Some (link p)) as Hkept
    by (now apply ledger_kept).
  destruct (processPost_skipped P env thirty q w2)
    as (w' & E & Hkv & Hcalls & _ & Hwrites).
  { unfold isSkipped. rewrite Hread, Hq. apply orb_true_iff. right.
    now apply bool_decide_eq_true. }
  rewrite E. auto.
Qed.

Lemma duplicate_skipped_while_ledger_holds_witness :
  publishCalls
    (trace (cycleAfter (calmPlatform []) env0
              (postA :: [postOld; postA] ++ [postA]) emptyWorld))
  = publishCalls
      (trace (cycleAfter (calmPlatform []) env0
                (postA :: [postOld; postA]) emptyWorld)).
Proof.
  apply (duplicate_skipped_while_ledger_holds (calmPlatform []) env0
           postA postA [postOld; postA] emptyWorld).
  - vm_compute. reflexivity.
  - constructor; [left; reflexivity|].
    constructor; [right; reflexivity|]. constructor.
  - reflexivity.
  - reflexivity.
Defined.

(* ===================================================================== *)
(** ** Further properties: the pipeline                                   *)
(* ===================================================================== *)

Lemma kvAccesses_app t1 t2 :
  kvAccesses (t1 ++ t2) = kvAccesses t1 ++ kvAccesses t2.
Proof. apply List.filter_app. Qed.

Lemma feedRequests_app t1 t2 :
  feedRequests (t1 ++ t2) = feedRequests t1 ++ feedRequests t2.
Proof. apply List.filter_app. Qed.

(** Where the ledger stands after a post that was not skipped. *)
Lemma processPost_published_kv P env thirty post w :
  isSkipped P thirty post w = false ->
  exists h,
    kv (snd (processPost P env thirty post w)) =
    match kv_put_rejects P h LAST_POST_KEY (link post) with
    | None => <[LAST_POST_KEY := link post]> (kv w)
    | Some _ => kv w
    end.
Proof.
  unfold isSkipped, processPost. intros H.
  apply orb_false_iff in H as [Eold H]. rewrite Eold.
  unfold try_catch, bind at 1.
  destruct (isPostAlreadyPublished_shape P (link post) w)
    as (t1 & -> & _).
  rewrite H.
  unfold bind at 1. unfold console_log at 1, emit at 1.
  unfold bind at 1. rewrite publishToMastodon_run.
  unfold bind at 1. rewrite savePublishedPost_run.
  cbn [kv trace].
  match goal with
  | |- context [kv_put_rejects P ?t LAST_POST_KEY (link post)] => exists t
  end.
  destruct (kv_put_rejects P _ LAST_POST_KEY (link post)); unfold_monad;
    cbn [kv trace snd]; reflexivity.
Qed.

(** The loop as a whole: the posts it publishes are, in feed order,
    some of the posts that are not old; each publish call is followed
    by one write of that post's link under the one key; no other key
    changes. *)
Lemma for_of_processPost_spec P env thirty posts w :
  exists w' published,
    for_of posts (processPost P env thirty) w = (inr tt, w') /\
    sublist published (List.filter (notOld thirty) posts) /\
    publishedBodies (trace w')
    = publishedBodies (trace w) ++ map description published /\
    ledgerWrites (trace w')
    = ledgerWrites (trace w)
      ++ map (fun post => KvPut LAST_POST_KEY (link post)) published /\
    (forall key, key <> LAST_POST_KEY -> kv w' !! key = kv w !! key) /\
    ((forall h value, kv_put_rejects P h LAST_POST_KEY value = None) ->
     kv w' !! LAST_POST_KEY = lastLink published (kv w !! LAST_POST_KEY)).
Proof.
  revert w. induction posts as [|post posts IH]; intros w.
  - exists w, []. cbn [for_of map List.filter]. unfold ret.
    rewrite !app_nil_r.
    split; [reflexivity|]. split; [constructor|].
    split; [reflexivity|]. split; [reflexivity|].
    split; [reflexivity|]. reflexivity.
  - cbn [for_of List.filter]. unfold bind.
    destruct (isSkipped P thirty post w) eqn:E.
    + destruct (processPost_skipped P env thirty post w E)
        as (w1 & -> & Hkv & _ & Hb & Hl).
      destruct (IH w1) as (w' & published & -> & Hsub & Hb' & Hl' & Hk & Hlast).
      exists w', published. rewrite Hb', Hl', Hb, Hl, <- Hkv.
      split; [reflexivity|]. split.
      { destruct (notOld thirty post); [now apply sublist_cons|assumption]. }
      split; [reflexivity|]. split; [reflexivity|].
      split; assumption.
    + pose proof (processPost_published_kv P env thirty post w E) as [h Hput].
      destruct (processPost_published P env thirty post w E)
        as (w1 & Eq & Hb & Hl & Hkv).
      rewrite Eq in Hput. cbn [snd] in Hput. rewrite Eq.
      destruct (IH w1) as (w' & published & -> & Hsub & Hb' & Hl' & Hk & Hlast).
      exists w', (post :: published). rewrite Hb', Hl', Hb, Hl.
      cbn [map]. rewrite <- !app_assoc. cbn [app].
      split; [reflexivity|]. split.
      { unfold isSkipped in E. apply orb_false_iff in E as [E _].
        unfold notOld at 1. rewrite E. cbn [negb]. now apply sublist_skip. }
      split; [reflexivity|]. split; [reflexivity|]. split.
      { intros key Hkey. rewrite Hk by assumption.
        destruct Hkv as [-> | ->]; [reflexivity|].
        now apply lookup_insert_ne. }
      intros Hputs. rewrite Hlast by assumption.
      rewrite Hputs in Hput. rewrite Hput, lookup_insert_eq.
      unfold lastLink. rewrite last_cons.
      destruct (last published); reflexivity.
Qed.

Lemma fetchAllPosts_shape P url w :
  exists r t1,
    fetchAllPosts P url w = (r, {| kv := kv w; trace := trace w ++ t1 |}) /\
    publishedBodies t1 = [] /\ ledgerWrites t1 = [] /\ kvAccesses t1 = [].
Proof.
  unfold fetchAllPosts, fetch_get.
  destruct (URL_valid P url); cbn [negb].
  - unfold_monad. cbn [kv trace].
    destruct (feed P url) as [e|[o st [e|body]]]; cbn [ok text statusText].
    2,3: destruct o; cbn [negb].
    all: cbn [kv trace]; rewrite <- ?app_assoc; cbn [app].
    all: eexists; eexists; (split; [reflexivity|]); repeat split.
  - unfold throw. exists (inl (mkError (js "Invalid RSS feed URL: " ++ url))), [].
    rewrite app_nil_r. destruct w. repeat split.
Qed.

(** A whole cycle, whatever the platform does. *)
Lemma processLatestPosts_spec P env w :
  exists w' published,
    processLatestPosts P env w = (inr tt, w') /\
    publishedBodies (trace w')
    = publishedBodies (trace w) ++ map description published /\
    ledgerWrites (trace w')
    = ledgerWrites (trace w)
      ++ map (fun post => KvPut LAST_POST_KEY (link post)) published /\
    (forall key, key <> LAST_POST_KEY -> kv w' !! key = kv w !! key).
Proof.
  unfold processLatestPosts.
  unfold try_catch, bind at 1, console_log at 1, emit at 1.
  unfold bind at 1.
  destruct (fetchAllPosts_shape P (RSS_FEED_URL env)
              {| kv := kv w;
                 trace := trace w ++
                   [ConsoleLog (js "Fetching all posts from RSS feed...")] |})
    as (r & t1 & -> & Hb & Hl & _).
  cbn [kv trace].
  destruct r as [e | [|post posts]].
  - unfold_monad. cbn [kv trace]. eexists. exists [].
    split; [reflexivity|]. cbn [kv trace map]. rewrite <- !app_assoc.
    repeat split; trace_simpl; rewrite ?Hb, ?Hl, ?app_nil_r; reflexivity.
  - unfold_monad. cbn [kv trace]. eexists. exists [].
    split; [reflexivity|]. cbn [kv trace map]. rewrite <- !app_assoc.
    repeat split; trace_simpl; rewrite ?Hb, ?Hl, ?app_nil_r; reflexivity.
  - unfold bind at 1, console_log at 1, emit at 1. cbn [kv trace].
    unfold bind at 1, processPostsRecursively, bind at 1, history.
    cbn [trace].
    match goal with
    | |- context [for_of ?l (processPost P env ?th) ?w0] =>
        destruct (for_of_processPost_spec P env th l w0)
          as (w1 & published & -> & _ & Hb1 & Hl1 & Hk & _)
    end.
    unfold_monad. cbn [kv trace] in *. eexists. exists published.
    split; [reflexivity|]. cbn [kv trace].
    rewrite <- !app_assoc in Hb1, Hl1.
    repeat split; trace_simpl.
    + rewrite Hb1. trace_simpl. rewrite Hb, ?app_nil_r. reflexivity.
    + rewrite Hl1. trace_simpl. rewrite Hl, ?app_nil_r. reflexivity.
    + assumption.
Qed.

(** X1.  A cycle never raises: whatever the feed server, the posting
    API and the key-value namespace do, [processLatestPosts] returns. *)
Theorem cycle_never_throws P env w :
  fst (processLatestPosts P env w) = inr tt.
Proof.
  destruct (processLatestPosts_spec P env w) as (w' & published & -> & _).
  reflexivity.
Qed.

(** X2.  A cycle writes under the one key [last_post] only: every
    write of the cycle carries that key, and what the namespace holds
    under any other key is what it held before. *)
Theorem cycle_keeps_other_keys P env w :
  Forall (fun e => exists value, e = KvPut LAST_POST_KEY value)
    (drop (length (ledgerWrites (trace w)))
       (ledgerWrites (trace (snd (processLatestPosts P env w))))) /\
  forall key,
    key <> LAST_POST_KEY ->
    kv (snd (processLatestPosts P env w)) !! key = kv w !! key.
Proof.
  destruct (processLatestPosts_spec P env w)
    as (w' & published & -> & _ & Hl & Hk).
  cbn [snd]. split; [|assumption].
  rewrite Hl, drop_app_length. clear Hl.
  induction published as [|post published IH]; cbn [map]; constructor;
    [eexists; reflexivity | exact IH].
Qed.

Lemma cycle_keeps_other_keys_witness :
  kv (snd (processLatestPosts (calmPlatform undatedFeed) env0
             {| kv := {[ js "other" := js "kept" ]}; trace := [] |}))
    !! js "other" = Some (js "kept").
Proof.
  rewrite (proj2 (cycle_keeps_other_keys (calmPlatform undatedFeed) env0
                    {| kv := {[ js "other" := js "kept" ]}; trace := [] |})).
  - vm_compute. reflexivity.
  - vm_compute. discriminate.
Defined.

Lemma deliveries_app t1 t2 :
  deliveries (t1 ++ t2) = deliveries t1 ++ deliveries t2.
Proof. apply List.filter_app. Qed.

Lemma publishOutcome_no_delivery r : isDelivery (publishOutcome r) = false.
Proof.
  unfold isDelivery. destruct (publishOutcome_quiet r) as [-> ->]. reflexivity.
Qed.

(** The requests and writes one step of the loop adds: none for a
    post passed over, the request and then the write for any other. *)
Lemma processPost_deliveries P env thirty post w :
  exists t,
    trace (snd (processPost P env thirty post w)) = trace w ++ t /\
    deliveries t
    = if isSkipped P thirty post w then [] else delivery env post.
Proof.
  unfold isSkipped, processPost, delivery, publishRequest.
  destruct (date_lt (pubDateUTC post) thirty) eqn:Eold; cbn [orb].
  - unfold_monad. cbn [kv trace snd]. eexists.
    split; reflexivity.
  - unfold try_catch, bind at 1. rewrite isPostAlreadyPublished_run.
    destruct (kv_get_rejects P (trace w) LAST_POST_KEY) as [e|].
    + unfold bind at 1. unfold console_log at 1, emit at 1.
      unfold bind at 1. rewrite publishToMastodon_run.
      unfold bind at 1. rewrite savePublishedPost_run. cbn [kv trace].
      destruct (kv_put_rejects P _ LAST_POST_KEY (link post));
        unfold_monad; cbn [kv trace snd]; rewrite <- ?app_assoc; cbn [app];
        eexists; (split; [reflexivity|]);
        cbn [deliveries List.filter isDelivery isPublishCall isLedgerWrite
             orb];
        rewrite publishOutcome_no_delivery; reflexivity.
    + destruct (bool_decide (kv w !! LAST_POST_KEY = Some (link post))).
      * unfold_monad. cbn [kv trace snd]. rewrite <- ?app_assoc. eexists.
        split; reflexivity.
      * unfold bind at 1. unfold console_log at 1, emit at 1.
        unfold bind at 1. rewrite publishToMastodon_run.
        unfold bind at 1. rewrite savePublishedPost_run. cbn [kv trace].
        destruct (kv_put_rejects P _ LAST_POST_KEY (link post));
          unfold_monad; cbn [kv trace snd]; rewrite <- ?app_assoc;
          cbn [app]; eexists; (split; [reflexivity|]);
          cbn [deliveries List.filter isDelivery isPublishCall
               isLedgerWrite orb];
          rewrite publishOutcome_no_delivery; reflexivity.
Qed.

Lemma for_of_processPost_deliveries P env thirty posts w :
  exists published,
    sublist published (List.filter (notOld thirty) posts) /\
    deliveries (trace (snd (for_of posts (processPost P env thirty) w)))
    = deliveries (trace w) ++ concat (map (delivery env) published).
Proof.
  revert w. induction posts as [|post posts IH]; intros w.
  - exists []. cbn. rewrite app_nil_r. split; [constructor | reflexivity].
  - cbn [for_of List.filter]. unfold bind.
    pose proof (processPost_returns P env thirty post w) as Hret.
    destruct (processPost_deliveries P env thirty post w) as (t1 & Ht1 & Hd1).
    destruct (processPost P env thirty post w) as [[e|[]] w1];
      cbn [fst snd] in *; [discriminate|].
    destruct (IH w1) as (published & Hsub & Hd).
    rewrite Hd, Ht1, deliveries_app, Hd1, <- app_assoc.
    destruct (isSkipped P thirty post w) eqn:E.
    + exists published. split; [|reflexivity].
      destruct (notOld thirty post); [now apply sublist_cons | assumption].
    + exists (post :: published). split; [|reflexivity].
      unfold isSkipped in E. apply orb_false_iff in E as [E _].
      unfold notOld at 1. rewrite E. cbn [negb]. now apply sublist_skip.
Qed.

(** X3.  The loop publishes in feed order, each post at most once per
    occurrence and never an old one; and every publish call is
    followed by exactly one ledger write, with the link of the post
    just sent: the requests to the posting API and the writes to the
    namespace alternate, pair by pair, along the published posts. *)
Theorem loop_publishes_in_feed_order P env posts w :
  exists published,
    sublist published
      (List.filter (notOld (thirtyMinutesAgo (Date_now P (trace w)))) posts) /\
    deliveries (trace (cycleAfter P env posts w))
    = deliveries (trace w) ++ concat (map (delivery env) published).
Proof.
  unfold cycleAfter, processPostsRecursively, bind, history.
  apply for_of_processPost_deliveries.
Qed.

(** One step of the loop when the namespace answers every call. *)
Lemma processPost_healthy P env thirty post w :
  (forall h key, kv_get_rejects P h key = None) ->
  (forall h key value, kv_put_rejects P h key value = None) ->
  exists w',
    processPost P env thirty post w = (inr tt, w') /\
    if date_lt (pubDateUTC post) thirty
       || bool_decide (kv w !! LAST_POST_KEY = Some (link post))
    then kv w' = kv w /\
         publishedBodies (trace w') = publishedBodies (trace w)
    else kv w' = <[LAST_POST_KEY := link post]> (kv w) /\
         publishedBodies (trace w')
         = publishedBodies (trace w) ++ [description post].
Proof.
  intros Hget Hput.
  destruct (isSkipped P thirty post w) eqn:E.
  - destruct (processPost_skipped P env thirty post w E)
      as (w' & -> & Hkv & _ & Hb & _).
    exists w'. split; [reflexivity|].
    unfold isSkipped in E. rewrite Hget in E. rewrite E. auto.
  - pose proof (processPost_published_kv P env thirty post w E) as [h Hkv].
    destruct (processPost_published P env thirty post w E)
      as (w' & Eq & Hb & _).
    rewrite Eq in Hkv. cbn [snd] in Hkv. rewrite Hput in Hkv.
    exists w'. split; [assumption|].
    unfold isSkipped in E. rewrite Hget in E. rewrite E. auto.
Qed.

(** X4.  With a working key-value namespace, which posts a cycle
    publishes is decided by dates, links and the ledger alone: they are
    the posts [selectPosts] picks, whatever the posting API answers to
    each call; and the ledger ends on the link of the last of them. *)
Theorem healthy_store_cycle P env posts w :
  (forall h key, kv_get_rejects P h key = None) ->
  (forall h key value, kv_put_rejects P h key value = None) ->
  let selected :=
    selectPosts (thirtyMinutesAgo (Date_now P (trace w)))
      (kv w !! LAST_POST_KEY) posts in
  publishedBodies (trace (cycleAfter P env posts w))
  = publishedBodies (trace w) ++ map description selected /\
  kv (cycleAfter P env posts w) !! LAST_POST_KEY
  = lastLink selected (kv w !! LAST_POST_KEY).
Proof.
  intros Hget Hput. cbv zeta.
  unfold cycleAfter, processPostsRecursively, bind, history.
  set (thirty := thirtyMinutesAgo (Date_now P (trace w))). clearbody thirty.
  revert w. induction posts as [|post posts IH]; intros w.
  - cbn. rewrite app_nil_r. auto.
  - cbn [for_of selectPosts]. unfold bind.
    destruct (processPost_healthy P env thirty post w Hget Hput)
      as (w1 & -> & H).
    destruct (date_lt (pubDateUTC post) thirty
              || bool_decide (kv w !! LAST_POST_KEY = Some (link post))).
    + destruct H as [Hkv Hb]. destruct (IH w1) as [IH1 IH2].
      rewrite IH1, IH2, Hkv, Hb. auto.
    + destruct H as [Hkv Hb]. destruct (IH w1) as [IH1 IH2].
      rewrite IH1, IH2, Hkv, Hb, lookup_insert_eq.
      cbn [map]. rewrite <- app_assoc. split; [reflexivity|].
      unfold lastLink. rewrite last_cons.
      destruct (last _); reflexivity.
Qed.

Lemma healthy_store_cycle_witness :
  publishedBodies
    (trace (cycleAfter refusingPlatform env0
              [postA; postA; postOld; postB] emptyWorld))
  = [description postA; description postB] /\
  kv (cycleAfter refusingPlatform env0
        [postA; postA; postOld; postB] emptyWorld) !! LAST_POST_KEY
  = Some (link postB).
Proof.
  pose proof (healthy_store_cycle refusingPlatform env0
                [postA; postA; postOld; postB] emptyWorld) as H.
  cbv zeta in H. destruct H as [H1 H2]; [reflexivity | reflexivity |].
  rewrite H1, H2. split; vm_compute; reflexivity.
Defined.

(** X5.  When every read of the ledger is rejected, the check fails
    open: the cycle publishes every post that is not old, in feed
    order, duplicates included. *)
Theorem store_down_publishes_every_recent_post P env posts w :
  (forall h, kv_get_rejects P h LAST_POST_KEY <> None) ->
  publishedBodies (trace (cycleAfter P env posts w))
  = publishedBodies (trace w)
    ++ map description
         (List.filter (notOld (thirtyMinutesAgo (Date_now P (trace w))))
            posts).
Proof.
  intros Hget.
  unfold cycleAfter, processPostsRecursively, bind, history.
  set (thirty := thirtyMinutesAgo (Date_now P (trace w))). clearbody thirty.
  revert w. induction posts as [|post posts IH]; intros w.
  - cbn. now rewrite app_nil_r.
  - cbn [for_of List.filter]. unfold bind.
    assert (isSkipped P thirty post w = date_lt (pubDateUTC post) thirty)
      as Hskip.
    { unfold isSkipped. specialize (Hget (trace w)).
      destruct (kv_get_rejects P (trace w) LAST_POST_KEY);
        [apply orb_false_r | congruence]. }
    unfold notOld at 1.
    destruct (date_lt (pubDateUTC post) thirty) eqn:E; cbn [negb].
    + destruct (processPost_skipped P env thirty post w Hskip)
        as (w1 & -> & _ & _ & Hb & _).
      now rewrite IH, Hb.
    + destruct (processPost_published P env thirty post w Hskip)
        as (w1 & -> & Hb & _).
      rewrite IH, Hb. cbn [map]. now rewrite <- app_assoc.
Qed.

Lemma store_down_publishes_every_recent_post_witness :
  publishedBodies
    (trace (cycleAfter storeDownPlatform env0
              [postA; postOld; postA] (ledgerWorld (js "A"))))
  = [description postA; description postA].
Proof.
  rewrite store_down_publishes_every_recent_post.
  - vm_compute. reflexivity.
  - intros h. discriminate.
Defined.

(** X6.  Posts with a valid date before the start of the window leave
    the outside untouched: no publish call, no read and no write of
    the namespace; a post dated exactly at the start of the window is
    not among them. *)
Theorem old_posts_leave_no_trace P env posts w :
  (Z.abs (Date_now P (trace w) - 30 * 60 * 1000) <= 8640000000000000)%Z ->
  Forall (fun post =>
            exists publishedAt,
              pubDateUTC post = Some publishedAt /\
              (publishedAt < Date_now P (trace w) - 30 * 60 * 1000)%Z)
    posts ->
  publishCalls (trace (cycleAfter P env posts w)) = publishCalls (trace w) /\
  kvAccesses (trace (cycleAfter P env posts w)) = kvAccesses (trace w) /\
  kv (cycleAfter P env posts w) = kv w /\
  date_lt (Some (Date_now P (trace w) - 30 * 60 * 1000)%Z)
    (thirtyMinutesAgo (Date_now P (trace w))) = false.
Proof.
  intros Hclip Hposts.
  unfold cycleAfter, processPostsRecursively, bind, history.
  assert (thirtyMinutesAgo (Date_now P (trace w))
          = Some (Date_now P (trace w) - 30 * 60 * 1000)%Z) as Hthirty.
  { unfold thirtyMinutesAgo, timeClip. apply Z.leb_le in Hclip.
    now rewrite Hclip. }
  rewrite Hthirty.
  set (start := (Date_now P (trace w) - 30 * 60 * 1000)%Z) in *.
  clearbody start. clear Hclip Hthirty.
  split; [|split; [|split]].
  4:{ cbn [date_lt]. apply Z.ltb_irrefl. }
  all: revert w; induction Hposts as [|post posts (t & Ht & Hlt) _ IH];
    intros w; [reflexivity|].
  all: cbn [for_of]; unfold bind, processPost.
  all: rewrite Ht; cbn [date_lt]; apply Z.ltb_lt in Hlt; rewrite Hlt.
  all: unfold_monad; cbn [kv trace].
  all: rewrite IH; cbn [kv trace].
  - rewrite publishCalls_app. cbn. apply app_nil_r.
  - rewrite kvAccesses_app. cbn. apply app_nil_r.
  - reflexivity.
Qed.

Lemma old_posts_leave_no_trace_witness :
  kvAccesses
    (trace (cycleAfter (calmPlatform []) env0 [postOld; postOld] emptyWorld))
  = [].
Proof.
  destruct (old_posts_leave_no_trace (calmPlatform []) env0
              [postOld; postOld] emptyWorld) as (_ & H & _).
  - vm_compute. discriminate.
  - repeat constructor; exists (t0 - 2 * 60 * 60 * 1000)%Z;
      (split; [reflexivity | vm_compute; reflexivity]).
  - rewrite H. reflexivity.
Defined.

(** X7.  When the configured feed URL is not a URL, the cycle issues no
    request at all: it logs the error once, at its top level, and
    ends. *)
Theorem invalid_url_no_request P env w :
  URL_valid P (RSS_FEED_URL env) = false ->
  processLatestPosts P env w
  = (inr tt,
     {| kv := kv w;
        trace := trace w ++
          [ConsoleLog (js "Fetching all posts from RSS feed...");
           ConsoleError (js "Error processing RSS posts:")
             (mkError (js "Invalid RSS feed URL: " ++ RSS_FEED_URL env))] |}).
Proof.
  intros Hurl. unfold processLatestPosts, fetchAllPosts. rewrite Hurl.
  cbn [negb]. unfold_monad. cbn [kv trace]. now rewrite <- app_assoc.
Qed.

Lemma invalid_url_no_request_witness :
  feedRequests (trace (snd (processLatestPosts badUrlPlatform env0 emptyWorld)))
  = [].
Proof.
  rewrite invalid_url_no_request by reflexivity. reflexivity.
Defined.

(** X8.  A link that was saved is then recognised, and only that link:
    after a successful [savePublishedPost], a successful ledger check
    answers true exactly for the saved link. *)
Theorem saved_link_is_recognised P (saved asked : jsstring) (w : World) :
  kv_put_rejects P (trace w) LAST_POST_KEY saved = None ->
  kv_get_rejects P (trace (snd (savePublishedPost P saved w))) LAST_POST_KEY
  = None ->
  fst (isPostAlreadyPublished P asked (snd (savePublishedPost P saved w)))
  = inr (bool_decide (asked = saved)).
Proof.
  intros Hput Hget. rewrite isPostAlreadyPublished_run, Hget.
  rewrite savePublishedPost_run, Hput. cbn [fst snd kv].
  rewrite lookup_insert_eq. f_equal.
  apply bool_decide_ext. split; congruence.
Qed.

Lemma saved_link_is_recognised_witness :
  fst (isPostAlreadyPublished (calmPlatform []) (js "A")
         (snd (savePublishedPost (calmPlatform []) (js "A") emptyWorld)))
  = inr true.
Proof.
  rewrite saved_link_is_recognised by reflexivity.
  vm_compute. reflexivity.
Defined.

(* ===================================================================== *)
(** ** Further properties: the matcher                                    *)
(* ===================================================================== *)

Lemma has_char_take c n s :
  has_char c s = false -> has_char c (take n s) = false.
Proof.
  revert n. induction s as [|x s IH]; intros [|n] H; try reflexivity.
  apply has_char_cons in H as [Hx Hs]. cbn [take].
  apply has_char_cons. auto.
Qed.

Lemma has_char_true_app_r c s1 s2 :
  has_char c s2 = true -> has_char c (s1 ++ s2) = true.
Proof.
  intros H. unfold has_char in *. rewrite existsb_app, H.
  apply orb_true_r.
Qed.

Lemma capture_free c cs i : caps_free c cs -> has_char c (capture cs i) = false.
Proof.
  induction 1 as [|[j x] cs Hx _ IH]; [reflexivity|].
  cbn [capture]. destruct (Nat.eqb i j); [exact Hx | exact IH].
Qed.

Lemma canonicalize_nonletter c x :
  (c <? 65) || ((90 <? c) && (c <? 97)) || (122 <? c) = true ->
  canonicalize x = canonicalize c -> x = c.
Proof.
  intros Hc. unfold canonicalize.
  assert ((97 <=? c) && (c <=? 122) = false) as ->.
  { apply andb_false_iff.
    apply orb_true_iff in Hc as [Hc|Hc];
      [apply orb_true_iff in Hc as [Hc|Hc]|].
    - apply N.ltb_lt in Hc. left. apply N.leb_gt. lia.
    - apply andb_true_iff in Hc as [_ Hc]. apply N.ltb_lt in Hc.
      left. apply N.leb_gt. lia.
    - apply N.ltb_lt in Hc. right. apply N.leb_gt. lia. }
  destruct ((97 <=? x) && (x <=? 122)) eqn:E; [|auto].
  apply andb_true_iff in E as [E1 E2]. apply N.leb_le in E1, E2.
  intros <-.
  apply orb_true_iff in Hc as [Hc|Hc];
    [apply orb_true_iff in Hc as [Hc|Hc]|].
  - apply N.ltb_lt in Hc. lia.
  - apply andb_true_iff in Hc as [Hc Hc']. apply N.ltb_lt in Hc, Hc'. lia.
  - apply N.ltb_lt in Hc. lia.
Qed.

(** Where a repetition succeeds, the rest of the pattern succeeded on
    some suffix. *)
Lemma star_greedy_reaches {R} p (k : jsstring -> option R) s v :
  star_greedy p k s = Some v ->
  exists pre s', s = pre ++ s' /\ k s' = Some v.
Proof.
  induction s as [|x s IH]; cbn [star_greedy]; intros H.
  - now exists [], [].
  - destruct (p x).
    + destruct (star_greedy p k s) as [r|] eqn:E.
      * injection H as ->. destruct (IH eq_refl) as (pre & s' & -> & Hk).
        now exists (x :: pre), s'.
      * now exists [], (x :: s).
    + now exists [], (x :: s).
Qed.

Lemma star_lazy_reaches {R} p (k : jsstring -> option R) s v :
  star_lazy p k s = Some v ->
  exists pre s', s = pre ++ s' /\ k s' = Some v.
Proof.
  induction s as [|x s IH]; cbn [star_lazy]; intros H.
  - destruct (k []) as [r|] eqn:E; [|discriminate].
    exists [], []. split; [reflexivity | congruence].
  - destruct (k (x :: s)) as [r|] eqn:E.
    + exists [], (x :: s). split; [reflexivity | congruence].
    + destruct (p x); [|discriminate].
      destruct (IH H) as (pre & s' & -> & Hk).
      now exists (x :: pre), s'.
Qed.

(** Where a pattern succeeds, its continuation succeeded on some
    suffix; and captures taken from a text without [c] are without
    [c]. *)
Lemma matcher_reaches {R} r (k : jsstring -> captures -> option R) s cs v :
  matcher r k s cs = Some v ->
  exists pre s' cs',
    s = pre ++ s' /\ k s' cs' = Some v /\
    forall c, has_char c s = false -> caps_free c cs -> caps_free c cs'.
Proof.
  revert k s cs v.
  induction r as [|c0|c0|p|r1 IH1 r2 IH2|r1 IH1 r2 IH2|r1 IH1|p|p|p|i r1 IH1];
    intros k s cs v H; cbn [matcher] in H.
  - exists [], s, cs. auto.
  - destruct s as [|x s]; [discriminate|].
    destruct (x =? c0); [|discriminate]. exists [x], s, cs. auto.
  - destruct s as [|x s]; [discriminate|].
    destruct (canonicalize x =? canonicalize c0); [|discriminate].
    exists [x], s, cs. auto.
  - destruct s as [|x s]; [discriminate|].
    destruct (p x); [|discriminate]. exists [x], s, cs. auto.
  - apply IH1 in H as (pre1 & s1 & cs1 & -> & H & Hc1).
    apply IH2 in H as (pre2 & s2 & cs2 & -> & H & Hc2).
    exists (pre1 ++ pre2), s2, cs2. rewrite <- app_assoc.
    split; [reflexivity|]. split; [assumption|].
    intros c Hs Hcs. apply Hc2.
    + apply has_char_app in Hs. tauto.
    + now apply Hc1.
  - destruct (matcher r1 k s cs) as [x|] eqn:E.
    + injection H as ->. now apply IH1.
    + now apply IH2.
  - destruct (matcher r1 k s cs) as [x|] eqn:E.
    + injection H as ->. now apply IH1.
    + exists [], s, cs. auto.
  - apply star_greedy_reaches in H as (pre & s' & -> & H).
    exists pre, s', cs. auto.
  - apply star_lazy_reaches in H as (pre & s' & -> & H).
    exists pre, s', cs. auto.
  - destruct s as [|x s]; [discriminate|].
    destruct (p x); [|discriminate].
    apply star_greedy_reaches in H as (pre & s' & -> & H).
    exists (x :: pre), s', cs. auto.
  - apply IH1 in H as (pre & s' & cs' & -> & H & Hc).
    exists pre, s', ((i, take (length (pre ++ s') - length s') (pre ++ s')) :: cs').
    split; [reflexivity|]. split; [assumption|].
    intros c Hs Hcs. constructor; [|now apply Hc].
    cbn [snd]. now apply has_char_take.
Qed.

(** A pattern that requires a literal only matches a text that has
    it. *)
Lemma matcher_requires {R} r c (k : jsstring -> captures -> option R) s cs v :
  requires_char c r = true -> matcher r k s cs = Some v ->
  has_char c s = true.
Proof.
  revert k s cs v.
  induction r as [|c0|c0|p|r1 IH1 r2 IH2|r1 IH1 r2 IH2|r1 IH1|p|p|p|i r1 IH1];
    intros k s cs v Hreq H; cbn [requires_char] in Hreq;
    try discriminate; cbn [matcher] in H.
  - destruct s as [|x s]; [discriminate|].
    destruct (x =? c0) eqn:E; [|discriminate].
    apply N.eqb_eq in E, Hreq. subst. unfold has_char. cbn.
    now rewrite N.eqb_refl.
  - destruct s as [|x s]; [discriminate|].
    destruct (canonicalize x =? canonicalize c0) eqn:E; [|discriminate].
    apply andb_true_iff in Hreq as [Hc Hn]. apply N.eqb_eq in E, Hc. subst c0.
    apply canonicalize_nonletter in E; [|assumption]. subst.
    unfold has_char. cbn. now rewrite N.eqb_refl.
  - apply orb_true_iff in Hreq as [Hreq|Hreq].
    + now apply (IH1 _ _ _ _ Hreq H).
    + apply matcher_reaches in H as (pre & s' & cs' & -> & H & _).
      apply has_char_true_app_r. now apply (IH2 _ _ _ _ Hreq H).
  - apply andb_true_iff in Hreq as [Hreq1 Hreq2].
    destruct (matcher r1 k s cs) as [x|] eqn:E.
    + injection H as ->. now apply (IH1 _ _ _ _ Hreq1 E).
    + now apply (IH2 _ _ _ _ Hreq2 H).
  - now apply (IH1 _ _ _ _ Hreq H).
Qed.

(* ===================================================================== *)
(** ** Further properties: the conversion to plain text                   *)
(* ===================================================================== *)

Lemma trim_edges s :
  opensWithSpace (trim s) = false /\ opensWithSpace (rev (trim s)) = false.
Proof.
  unfold trim, trimEnd. rewrite rev_involutive. split.
  - destruct (trimStart_head s) as [-> | (x & t & -> & Hx)]; [reflexivity|].
    simpl rev.
    destruct (trimStart_keeps_last (rev t) x Hx) as [l' ->].
    rewrite rev_app_distr. simpl. exact Hx.
  - destruct (trimStart_head (rev (trimStart s))) as [-> | (x & t & -> & Hx)];
      [reflexivity | exact Hx].
Qed.

Lemma trimStart_suffix s : exists d, s = d ++ trimStart s.
Proof.
  induction s as [|x s [d IH]]; [now exists []|].
  cbn [trimStart]. destruct (isTrimmed x).
  - exists (x :: d). cbn. now rewrite <- IH.
  - now exists [].
Qed.

Lemma trimEnd_prefix s : exists e, s = trimEnd s ++ e.
Proof.
  unfold trimEnd. destruct (trimStart_suffix (rev s)) as [d Hd].
  exists (rev d). rewrite <- rev_app_distr, <- Hd. now rewrite rev_involutive.
Qed.

(** *** Tags *)

Lemma has_char_split c s :
  has_char c s = true ->
  exists xs rest, s = xs ++ c :: rest /\ has_char c xs = false.
Proof.
  induction s as [|x s IH]; [discriminate|].
  unfold has_char. cbn [existsb]. intros H.
  destruct (c =? x) eqn:E.
  - apply N.eqb_eq in E. subst. now exists [], s.
  - destruct (IH H) as (xs & rest & -> & Hxs).
    exists (x :: xs), rest. split; [reflexivity|].
    apply has_char_cons. split; [|assumption].
    apply N.eqb_neq in E. congruence.
Qed.

Lemma tag_at_app t e : tag_at t = true -> tag_at (t ++ e) = true.
Proof.
  destruct t as [|x [|c t]]; try discriminate. cbn [tag_at app].
  intros H. apply andb_true_iff in H as [H1 H2]. rewrite H1. cbn [andb].
  unfold has_char in *. rewrite existsb_app, H2. reflexivity.
Qed.

Lemma has_tag_cons x s : has_tag (x :: s) = false -> has_tag s = false.
Proof. cbn [has_tag]. intros H. apply orb_false_iff in H. tauto. Qed.

Lemma has_tag_suffix d s : has_tag (d ++ s) = false -> has_tag s = false.
Proof.
  induction d as [|x d IH]; [auto|]. intros H. apply IH.
  exact (has_tag_cons _ _ H).
Qed.

Lemma has_tag_prefix s e : has_tag (s ++ e) = false -> has_tag s = false.
Proof.
  induction s as [|x s IH]; [reflexivity|].
  change ((x :: s) ++ e) with (x :: (s ++ e)). cbn [has_tag]. intros H.
  apply orb_false_iff in H as [H1 H2]. apply orb_false_iff. split.
  - destruct (tag_at (x :: s)) eqn:E; [|reflexivity].
    apply (tag_at_app _ e) in E.
    change ((x :: s) ++ e) with (x :: (s ++ e)) in E. congruence.
  - now apply IH.
Qed.

Lemma has_tag_trim s : has_tag s = false -> has_tag (trim s) = false.
Proof.
  intros H. unfold trim.
  destruct (trimStart_suffix s) as [d Hd]. rewrite Hd in H.
  apply has_tag_suffix in H.
  destruct (trimEnd_prefix (trimStart s)) as [e He]. rewrite He in H.
  now apply has_tag_prefix in H.
Qed.

Lemma no_gt_no_tag s : has_char GT_SIGN s = false -> has_tag s = false.
Proof.
  induction s as [|x s IH]; [reflexivity|]. intros H.
  apply has_char_cons in H as [Hx Hs]. cbn [has_tag].
  rewrite (IH Hs), orb_false_r.
  destruct s as [|c t]; [reflexivity|]. cbn [tag_at].
  apply has_char_cons in Hs as [_ Ht]. rewrite Ht. apply andb_false_r.
Qed.

(** A pattern that starts with [<], needs a [>] and does not match
    [<>] only matches where a tag starts. *)
Lemma match_is_tag r t :
  first_char r = Some LT_SIGN -> requires_char GT_SIGN r = true ->
  (forall t2, match_here r (LT_SIGN :: GT_SIGN :: t2) = None) ->
  match_here r t <> None -> tag_at t = true.
Proof.
  intros Hfirst Hreq Hempty Hm.
  destruct (match_here r t) as [v|] eqn:E; [clear Hm | congruence].
  unfold match_here in E.
  pose proof (matcher_requires _ _ _ _ _ _ Hreq E) as Hgt.
  destruct t as [|x t]; [discriminate|].
  destruct (N.eq_dec x LT_SIGN) as [->|Hx].
  2:{ rewrite (first_char_None_on_other r LT_SIGN) in E by assumption.
      discriminate. }
  destruct t as [|c t]; [discriminate|].
  destruct (N.eq_dec c GT_SIGN) as [->|Hc].
  { specialize (Hempty t). unfold match_here in Hempty. congruence. }
  cbn [tag_at]. rewrite N.eqb_refl. apply N.eqb_neq in Hc. rewrite Hc.
  cbn [negb andb].
  unfold has_char in Hgt. cbn [existsb] in Hgt.
  rewrite (N.eqb_sym GT_SIGN c), Hc in Hgt. exact Hgt.
Qed.

(** Such a pattern leaves a text without tags as it is. *)
Lemma replace_all_tagfree r f s :
  first_char r = Some LT_SIGN -> requires_char GT_SIGN r = true ->
  (forall t2, match_here r (LT_SIGN :: GT_SIGN :: t2) = None) ->
  has_tag s = false -> replace_all r f s = s.
Proof.
  intros Hfirst Hreq Hempty.
  induction s as [|x s IH]; intros Hs.
  - apply (replace_all_absent r LT_SIGN); auto.
  - cbn [has_tag] in Hs. apply orb_false_iff in Hs as [Hhere Hs].
    rewrite replace_all_no_match.
    + now rewrite IH.
    + destruct (match_here r (x :: s)) eqn:E; [|reflexivity].
      rewrite (match_is_tag r (x :: s)) in Hhere; try assumption;
        [discriminate | congruence].
Qed.

(** Where a tag starts, the stripping pattern matches, up to the first
    [>]. *)
Lemma re_tag_matches t :
  tag_at t = true ->
  exists m rest,
    t = m ++ rest /\ m <> [] /\ match_here re_tag t = Some (rest, []).
Proof.
  destruct t as [|x [|c t]]; try discriminate. cbn [tag_at]. intros H.
  apply andb_true_iff in H as [H Hgt]. apply andb_true_iff in H as [Hx Hc].
  apply N.eqb_eq in Hx. subst x.
  destruct (has_char_split _ _ Hgt) as (xs & rest & -> & Hxs).
  exists (LT_SIGN :: c :: xs ++ [GT_SIGN]), rest.
  split; [cbn; now rewrite <- app_assoc|]. split; [discriminate|].
  unfold match_here, re_tag. cbn -[star_greedy not_char GT_SIGN].
  unfold not_char at 1. rewrite Hc.
  apply star_greedy_upto; [assumption | reflexivity].
Qed.

Lemma re_tag_only_tags t2 :
  match_here re_tag (LT_SIGN :: GT_SIGN :: t2) = None.
Proof. reflexivity. Qed.

(** The stripping pass leaves no tag. *)
Lemma strip_leaves_no_tag s :
  has_tag (replace_all re_tag (fun _ _ => []) s) = false.
Proof.
  remember (length s) as n eqn:Hn.
  assert (length s <= n)%nat as Hlen by lia. clear Hn.
  revert s Hlen. induction n as [|n IH]; intros s Hlen.
  - destruct s; [reflexivity | cbn in Hlen; lia].
  - destruct s as [|x s]; [reflexivity|].
    destruct (tag_at (x :: s)) eqn:Etag.
    + destruct (re_tag_matches _ Etag) as (m & rest & Hsplit & Hm & Hmatch).
      pose proof (f_equal length Hsplit) as Hl. rewrite length_app in Hl.
      rewrite Hsplit in Hmatch. rewrite Hsplit.
      rewrite (replace_all_match _ _ _ _ [] Hm Hmatch).
      cbn [app]. apply IH.
      destruct m; [congruence|]. cbn [length] in Hl, Hlen. lia.
    + assert (match_here re_tag (x :: s) = None) as Hnone.
      { destruct (match_here re_tag (x :: s)) eqn:E; [|reflexivity].
        rewrite (match_is_tag re_tag (x :: s)) in Etag;
          [discriminate | reflexivity | reflexivity
          | apply re_tag_only_tags | congruence]. }
      rewrite (replace_all_no_match _ _ _ _ Hnone). cbn [has_tag].
      rewrite (IH s) by (cbn in Hlen; lia). rewrite orb_false_r.
      destruct s as [|c t]; [reflexivity|].
      cbn [tag_at] in Etag.
      destruct (x =? LT_SIGN) eqn:Ex; cbn [andb] in Etag.
      2:{ destruct (replace_all _ _ _) as [|? [|? ?]]; cbn [tag_at];
            rewrite ?Ex; reflexivity. }
      destruct (c =? GT_SIGN) eqn:Ec; cbn [negb andb] in Etag.
      * apply N.eqb_eq in Ec. subst c.
        rewrite replace_all_no_match by reflexivity.
        cbn [tag_at]. rewrite N.eqb_refl. cbn [negb].
        now rewrite andb_false_r.
      * assert (has_char GT_SIGN (c :: t) = false) as Hfree.
        { apply has_char_cons. apply N.eqb_neq in Ec. auto. }
        rewrite (replace_all_tagfree re_tag _ (c :: t));
          [|reflexivity | reflexivity | apply re_tag_only_tags
           | now apply no_gt_no_tag].
        cbn [tag_at]. now rewrite Ex, Ec, Etag.
Qed.

Lemma structuralPasses_no_tag html : has_tag (structuralPasses html) = false.
Proof.
  unfold structuralPasses. cbv zeta. apply has_tag_trim, strip_leaves_no_tag.
Qed.

(** On a text without tags the structural passes only trim. *)
Lemma structuralPasses_tagfree s :
  has_tag s = false -> structuralPasses s = trim s.
Proof.
  intros H. unfold structuralPasses. cbv zeta.
  repeat (rewrite (replace_all_tagfree _ _ s);
          [|reflexivity | reflexivity | intros; reflexivity | assumption]).
  reflexivity.
Qed.

Lemma structuralPasses_idem s :
  structuralPasses (structuralPasses s) = structuralPasses s.
Proof.
  rewrite (structuralPasses_tagfree (structuralPasses s))
    by apply structuralPasses_no_tag.
  unfold structuralPasses. cbv zeta. apply trim_idem.
Qed.

(** A replacement that adds no [c] keeps a text free of [c]. *)
Lemma replace_from_free r f c :
  (forall cs m, caps_free c cs -> has_char c m = false ->
                has_char c (f cs m) = false) ->
  forall s n, has_char c s = false -> has_char c (replace_from r f n s) = false.
Proof.
  intros Hf. induction s as [|x s IH]; intros n Hs.
  - cbn [replace_from]. destruct n; [|reflexivity].
    destruct (match_here r []) as [[rest cs]|] eqn:E; [|reflexivity].
    apply matcher_reaches in E as (pre & s' & cs' & _ & E & Hc).
    injection E as -> ->. apply Hf; [|reflexivity].
    apply Hc; [reflexivity | constructor].
  - pose proof Hs as Hs'. apply has_char_cons in Hs' as [Hx Htail].
    cbn [replace_from]. destruct n as [|n]; [|now apply IH].
    destruct (match_here r (x :: s)) as [[rest cs]|] eqn:E.
    + apply matcher_reaches in E as (pre & s' & cs' & _ & E & Hc).
      injection E as -> ->. apply has_char_app. split.
      * apply Hf; [|now apply has_char_take].
        apply Hc; [assumption | constructor].
      * destruct (length (x :: s) - length rest)%nat.
        -- apply has_char_cons. split; [assumption | now apply IH].
        -- now apply IH.
    + apply has_char_cons. split; [assumption | now apply IH].
Qed.

Lemma structuralPasses_no_ampersand s :
  has_char AMPERSAND s = false ->
  has_char AMPERSAND (structuralPasses s) = false.
Proof.
  intros H. unfold structuralPasses, replace_all. cbv zeta.
  apply has_char_trim.
  repeat (apply replace_from_free;
          [intros cs m Hcs Hm;
           rewrite ?has_char_app, ?(capture_free AMPERSAND cs) by assumption;
           repeat split; reflexivity|]).
  assumption.
Qed.

(** X9.  The converted text never starts or ends with white space or a
    line break, in any of the three formulations. *)
Theorem converted_text_is_trimmed (html : jsstring) (element : Dom.Node) :
  opensWithSpace (convertHtmlToText html) = false /\
  opensWithSpace (rev (convertHtmlToText html)) = false /\
  opensWithSpace (Plain.convertHtmlToText html) = false /\
  opensWithSpace (rev (Plain.convertHtmlToText html)) = false /\
  opensWithSpace (Dom.convertHtmlToText element) = false /\
  opensWithSpace (rev (Dom.convertHtmlToText element)) = false.
Proof.
  unfold convertHtmlToText, Plain.convertHtmlToText, structuralPasses.
  cbv zeta.
  repeat (split; [apply trim_edges|]).
  destruct element as [textContent|tagName attributes childNodes|];
    cbn [Dom.convertHtmlToText]; try (split; reflexivity).
  apply trim_edges.
Qed.

(** X10.  The converted text contains no tag: nowhere in it does a [<]
    stand before a run of other code units closed by a [>]. *)
Theorem converted_text_has_no_tag (html : jsstring) :
  has_tag (convertHtmlToText html) = false /\
  has_tag (Plain.convertHtmlToText html) = false.
Proof. split; apply structuralPasses_no_tag. Qed.

(** X11.  Without the entity decoding, the conversion is idempotent on
    every string. *)
Theorem plain_conversion_idempotent (html : jsstring) :
  Plain.convertHtmlToText (Plain.convertHtmlToText html)
  = Plain.convertHtmlToText html.
Proof. apply structuralPasses_idem. Qed.

(** X12.  With the entity decoding, the conversion is idempotent on
    every string without an ampersand, tags or not. *)
Theorem conversion_idempotent_without_ampersand (html : jsstring) :
  has_char AMPERSAND html = false ->
  convertHtmlToText (convertHtmlToText html) = convertHtmlToText html.
Proof.
  intros H. unfold convertHtmlToText. cbv zeta.
  rewrite (decodeHtmlEntities_plain html H).
  rewrite decodeHtmlEntities_plain by now apply structuralPasses_no_ampersand.
  apply structuralPasses_idem.
Qed.

Lemma conversion_idempotent_without_ampersand_witness :
  convertHtmlToText (convertHtmlToText (js "<p>Hello <b>world</b></p> <<i>x>"))
  = convertHtmlToText (js "<p>Hello <b>world</b></p> <<i>x>").
Proof.
  apply conversion_idempotent_without_ampersand. reflexivity.
Defined.

(* ===================================================================== *)
(** ** Further properties: the feed parser                                *)
(* ===================================================================== *)

Lemma matcher_CharI_list {R} pat (k : jsstring -> captures -> option R) s cs :
  matcher (seq_of (map CharI pat)) k s cs
  = if prefix_ci pat s then k (drop (length pat) s) cs else None.
Proof.
  revert s. induction pat as [|p pat IH]; intros s.
  - reflexivity.
  - destruct pat as [|q pat].
    + cbn [map seq_of matcher prefix_ci length].
      destruct s as [|x s]; [reflexivity|].
      rewrite andb_true_r. cbn [drop]. reflexivity.
    + change (seq_of (map CharI (p :: q :: pat)))
        with (Seq (CharI p) (seq_of (map CharI (q :: pat)))).
      cbn [matcher]. destruct s as [|x s]; [reflexivity|].
      cbn [prefix_ci]. destruct (canonicalize x =? canonicalize p);
        [|reflexivity].
      rewrite IH. reflexivity.
Qed.

Lemma matcher_litI {R} tag (k : jsstring -> captures -> option R) s cs :
  matcher (litI tag) k s cs
  = if prefix_ci (js tag) s then k (drop (length (js tag)) s) cs else None.
Proof. apply matcher_CharI_list. Qed.

Lemma prefix_ci_refl pat s : prefix_ci pat (pat ++ s) = true.
Proof.
  induction pat as [|p pat IH]; [reflexivity|].
  cbn [app prefix_ci]. now rewrite N.eqb_refl, IH.
Qed.

Lemma prefix_ci_app a b s :
  prefix_ci (a ++ b) s = prefix_ci a s && prefix_ci b (drop (length a) s).
Proof.
  revert s. induction a as [|p a IH]; intros s; [reflexivity|].
  destruct s as [|x s]; [reflexivity|].
  cbn [app prefix_ci length drop]. now rewrite IH, andb_assoc.
Qed.

(** A pattern whose tail has no [<] cannot straddle the point where the
    next [<] stands. *)
Lemma prefix_ci_inside pat t rest :
  Forall (fun p => canonicalize p <> LT_SIGN) pat ->
  (rest = [] \/ exists rest', rest = LT_SIGN :: rest') ->
  prefix_ci pat (t ++ rest) = true -> prefix_ci pat t = true.
Proof.
  intros Hpat Hrest. revert pat Hpat.
  induction t as [|c t IH]; intros pat Hpat H.
  - destruct pat as [|p pat]; [reflexivity|]. exfalso.
    destruct Hrest as [-> | [rest' ->]]; [discriminate|].
    cbn [app prefix_ci] in H. apply andb_true_iff in H as [H _].
    apply N.eqb_eq in H. inversion Hpat; subst.
    change (canonicalize LT_SIGN) with LT_SIGN in H. congruence.
  - destruct pat as [|p pat]; [reflexivity|].
    cbn [app prefix_ci] in *. apply andb_true_iff in H as [H1 H2].
    rewrite H1. inversion Hpat; subst. now apply IH.
Qed.

Lemma prefix_ci_straddle p0 pat t rest :
  Forall (fun p => canonicalize p <> LT_SIGN) pat ->
  (rest = [] \/ exists rest', rest = LT_SIGN :: rest') ->
  t <> [] ->
  prefix_ci (p0 :: pat) (t ++ rest) = true -> prefix_ci (p0 :: pat) t = true.
Proof.
  intros Hpat Hrest Ht H. destruct t as [|c t]; [congruence|].
  cbn [app prefix_ci] in *. apply andb_true_iff in H as [H1 H2].
  rewrite H1. now apply (prefix_ci_inside pat t rest).
Qed.

Lemma occurs_ci_suffix pat d t :
  occurs_ci pat (d ++ t) = false -> t <> [] -> prefix_ci pat t = false.
Proof.
  induction d as [|x d IH]; intros H Ht.
  - destruct t as [|c t]; [congruence|]. cbn [app occurs_ci] in H.
    apply orb_false_iff in H. tauto.
  - cbn [app occurs_ci] in H. apply orb_false_iff in H as [_ H]. auto.
Qed.

Lemma feedTags_plain tag :
  In tag feedTags ->
  Forall (fun p => canonicalize p <> LT_SIGN) (js tag) /\
  Forall (fun p => canonicalize p <> LT_SIGN) (js "/" ++ js tag ++ [GT_SIGN]) /\
  js tag <> [].
Proof.
  intros [<-|[<-|[<-|[<-|[]]]]]; (split; [|split]);
    try discriminate; repeat constructor; discriminate.
Qed.

(** No occurrence of the opening tag in [gap]: the pattern matches
    nowhere in it, whatever follows. *)
Lemma re_element_no_match tag s :
  prefix_ci (openTag tag) s = false -> match_here (re_element tag) s = None.
Proof.
  unfold match_here, re_element, openTag. cbn [seq_of matcher app].
  destruct s as [|x s]; [reflexivity|].
  cbn [prefix_ci]. destruct (canonicalize x =? canonicalize LT_SIGN);
    [|reflexivity].
  cbn [andb]. intros H. rewrite matcher_litI, H. reflexivity.
Qed.

Lemma re_element_skips_gap tag gap rest d t :
  In tag feedTags ->
  occurs_ci (openTag tag) gap = false ->
  (rest = [] \/ exists rest', rest = LT_SIGN :: rest') ->
  gap = d ++ t -> t <> [] ->
  match_here (re_element tag) (t ++ rest) = None.
Proof.
  intros Htag Hgap Hrest -> Ht. apply re_element_no_match.
  unfold openTag in *. cbn [app] in *.
  destruct (prefix_ci (LT_SIGN :: js tag) (t ++ rest)) eqn:E; [|reflexivity].
  apply prefix_ci_straddle in E; try assumption.
  - now rewrite (occurs_ci_suffix _ _ _ Hgap Ht) in E.
  - now apply feedTags_plain.
Qed.

(** The steps of the matcher, one construct at a time. *)
Lemma matcher_Seq {R} r1 r2 (k : jsstring -> captures -> option R) s cs :
  matcher (Seq r1 r2) k s cs
  = matcher r1 (fun s' cs' => matcher r2 k s' cs') s cs.
Proof. reflexivity. Qed.

Lemma matcher_CharI_cons {R} c (k : jsstring -> captures -> option R) x s cs :
  matcher (CharI c) k (x :: s) cs
  = if canonicalize x =? canonicalize c then k s cs else None.
Proof. reflexivity. Qed.

Lemma matcher_Star {R} p (k : jsstring -> captures -> option R) s cs :
  matcher (Star p) k s cs = star_greedy p (fun s' => k s' cs) s.
Proof. reflexivity. Qed.

Lemma matcher_Group_StarLazy {R} i p (k : jsstring -> captures -> option R)
    s cs :
  matcher (Group i (StarLazy p)) k s cs
  = star_lazy p
      (fun s' => k s' ((i, take (length s - length s') s) :: cs)) s.
Proof. reflexivity. Qed.

Lemma re_element_unfold tag :
  re_element tag
  = Seq (CharI LT_SIGN)
      (Seq (litI tag)
         (Seq (Star (not_char GT_SIGN))
            (Seq (CharI GT_SIGN)
               (Seq (Group 1 (StarLazy any))
                  (Seq (litI "</") (Seq (litI tag) (CharI GT_SIGN))))))).
Proof. reflexivity. Qed.

(** The closing part of the pattern is a test for the closing tag. *)
Lemma matcher_closeTag {R} tag (k : jsstring -> captures -> option R) s cs :
  matcher (Seq (litI "</") (Seq (litI tag) (CharI GT_SIGN))) k s cs
  = if prefix_ci (closeTag tag) s
    then k (drop (length (closeTag tag)) s) cs else None.
Proof.
  unfold closeTag. rewrite matcher_Seq, matcher_litI, !prefix_ci_app.
  destruct (prefix_ci (js "</") s); [|reflexivity]. cbn [andb].
  rewrite matcher_Seq, matcher_litI.
  destruct (prefix_ci (js tag) (drop (length (js "</")) s)); [|reflexivity].
  cbn [andb]. rewrite !length_app, <- !drop_drop.
  destruct (drop (length (js tag)) (drop (length (js "</")) s)) as [|y s4];
    [reflexivity|].
  rewrite matcher_CharI_cons. cbn [prefix_ci length drop].
  now rewrite andb_true_r.
Qed.

(** A lazy repetition stops at the first point where the rest of the
    pattern succeeds. *)
Lemma star_lazy_first {R} (K : jsstring -> option R) body tail v :
  (forall d t, body = d ++ t -> t <> [] -> K (t ++ tail) = None) ->
  K tail = Some v ->
  star_lazy any K (body ++ tail) = Some v.
Proof.
  intros Hnone Hsome. induction body as [|x body IH].
  - cbn [app]. destruct tail; cbn [star_lazy]; now rewrite Hsome.
  - pose proof (Hnone [] (x :: body) eq_refl ltac:(discriminate)) as H0.
    cbn [app] in H0. cbn [app star_lazy]. rewrite H0.
    cbn [any]. apply IH. intros d t -> Ht.
    now apply (Hnone (x :: d) t).
Qed.

(** On an element of the feed the pattern matches the whole element
    and captures what stands between its tags. *)
Lemma match_here_xmlElement tag attrs body rest :
  In tag feedTags ->
  has_char GT_SIGN attrs = false ->
  occurs_ci (closeTag tag) body = false ->
  match_here (re_element tag) (xmlElement tag attrs body ++ rest)
  = Some (rest, [(1%nat, body)]).
Proof.
  intros Htag Hattrs Hbody.
  unfold match_here, xmlElement, openTag. rewrite re_element_unfold.
  rewrite <- !app_assoc. cbn [app].
  rewrite matcher_Seq, matcher_CharI_cons, N.eqb_refl.
  rewrite matcher_Seq, matcher_litI, prefix_ci_refl, drop_app_length.
  rewrite matcher_Seq, matcher_Star.
  apply star_greedy_upto; [assumption|].
  rewrite matcher_Seq, matcher_CharI_cons, N.eqb_refl.
  rewrite matcher_Seq, matcher_Group_StarLazy.
  apply star_lazy_first.
  - intros d t -> Ht. rewrite matcher_closeTag.
    destruct (prefix_ci (closeTag tag) (t ++ closeTag tag ++ rest)) eqn:E;
      [|reflexivity].
    exfalso.
    assert (closeTag tag = LT_SIGN :: (js "/" ++ js tag ++ [GT_SIGN])) as Hc
      by reflexivity.
    pose proof (occurs_ci_suffix _ _ _ Hbody Ht) as Hno.
    rewrite Hc in E, Hno. apply prefix_ci_straddle in E.
    + congruence.
    + now apply feedTags_plain.
    + right. eauto.
    + assumption.
  - rewrite matcher_closeTag, prefix_ci_refl, drop_app_length.
    rewrite length_app. f_equal. f_equal. f_equal. f_equal.
    replace (length body + length (closeTag tag ++ rest)
             - length (closeTag tag ++ rest))%nat with (length body) by lia.
    apply take_app_length.
Qed.

(** *** Scanning *)

Lemma exec_from_skip r m rest :
  exec_from r (length m) (m ++ rest) = exec_from r O rest.
Proof. induction m as [|x m IH]; [reflexivity | exact IH]. Qed.

Lemma exec_from_match r m rest cs :
  m <> [] -> match_here r (m ++ rest) = Some (rest, cs) ->
  exec_from r O (m ++ rest) = cs :: exec_from r O rest.
Proof.
  intros Hm Hmatch. destruct m as [|x m]; [congruence|].
  change ((x :: m) ++ rest) with (x :: (m ++ rest)) in *.
  cbn [exec_from]. rewrite Hmatch.
  replace (Nat.pred (length (x :: m ++ rest) - length rest)) with (length m)
    by (cbn [length]; rewrite length_app; lia).
  now rewrite exec_from_skip.
Qed.

Lemma exec_from_gap r gap rest :
  (forall d t, gap = d ++ t -> t <> [] -> match_here r (t ++ rest) = None) ->
  exec_from r O (gap ++ rest) = exec_from r O rest.
Proof.
  induction gap as [|x gap IH]; intros H; [reflexivity|].
  pose proof (H [] (x :: gap) eq_refl ltac:(discriminate)) as H0.
  cbn [app] in H0. cbn [app exec_from]. rewrite H0.
  apply IH. intros d t -> Ht. now apply (H (x :: d) t).
Qed.

Lemma search_gap r gap rest :
  (forall d t, gap = d ++ t -> t <> [] -> match_here r (t ++ rest) = None) ->
  search r (gap ++ rest) = search r rest.
Proof.
  induction gap as [|x gap IH]; intros H; [reflexivity|].
  pose proof (H [] (x :: gap) eq_refl ltac:(discriminate)) as H0.
  cbn [app] in H0. cbn [app search]. rewrite H0.
  apply IH. intros d t -> Ht. now apply (H (x :: d) t).
Qed.

Lemma renderItemBlocks_start blocks :
  concat (map renderItemBlock blocks) = [] \/
  exists rest', concat (map renderItemBlock blocks) = LT_SIGN :: rest'.
Proof.
  destruct blocks as [|b blocks]; [now left|]. right.
  cbn [map concat]. unfold renderItemBlock, xmlElement, openTag.
  rewrite <- !app_assoc. cbn [app]. eauto.
Qed.

Lemma exec_from_itemBlocks blocks :
  Forall wellFormedItemBlock blocks ->
  exec_from (re_element "item") O (concat (map renderItemBlock blocks))
  = map (fun b => [(1%nat, itemBody b)]) blocks.
Proof.
  induction 1 as [|b blocks (Hattrs & Hbody & Hgap) _ IH]; [reflexivity|].
  cbn [map concat]. unfold renderItemBlock at 1. rewrite <- !app_assoc.
  rewrite (exec_from_match _ _ _ [(1%nat, itemBody b)]).
  - f_equal. rewrite exec_from_gap; [exact IH|].
    intros d t Hsplit Ht.
    apply (re_element_skips_gap "item" (itemGap b) _ d t);
      try assumption; [cbn; auto | apply renderItemBlocks_start].
  - unfold xmlElement, openTag. discriminate.
  - apply match_here_xmlElement; [cbn; auto | assumption..].
Qed.

Lemma extractElements_itemBlocks pre blocks :
  occurs_ci (openTag "item") pre = false ->
  Forall wellFormedItemBlock blocks ->
  extractElements (pre ++ concat (map renderItemBlock blocks)) "item"
  = map itemBody blocks.
Proof.
  intros Hpre Hblocks. unfold extractElements.
  rewrite exec_from_gap.
  - rewrite exec_from_itemBlocks by assumption.
    rewrite map_map. reflexivity.
  - intros d t Hsplit Ht.
    apply (re_element_skips_gap "item" pre _ d t);
      try assumption; [cbn; auto | apply renderItemBlocks_start].
Qed.

(** X13.  The feed parser returns the items of a feed, all of them and
    in feed order: for a feed made of item elements, each followed by
    text in which no further item opens, [extractElements] yields
    exactly what stands between the tags of each item. *)
Theorem extractElements_returns_every_item (pre : jsstring)
    (blocks : list ItemBlock) :
  occurs_ci (openTag "item") pre = false ->
  Forall wellFormedItemBlock blocks ->
  extractElements (pre ++ concat (map renderItemBlock blocks)) "item"
  = map itemBody blocks.
Proof. apply extractElements_itemBlocks. Qed.

Lemma extractElements_returns_every_item_witness :
  extractElements
    (js "<rss><channel><title>t</title>" ++
     concat (map renderItemBlock
               [mkItemBlock [] (js "<link>A</link>") (js " ");
                mkItemBlock (js " id=x") (js "<link>B</link>")
                  (js "</channel></rss>")]))
    "item"
  = [js "<link>A</link>"; js "<link>B</link>"].
Proof.
  rewrite extractElements_returns_every_item.
  - reflexivity.
  - reflexivity.
  - repeat constructor.
Defined.

Lemma search_absent tag xml :
  occurs_ci (openTag tag) xml = false -> search (re_element tag) xml = None.
Proof.
  induction xml as [|x xml IH]; intros H; [reflexivity|].
  cbn [occurs_ci] in H. apply orb_false_iff in H as [H1 H2].
  cbn [search]. rewrite (re_element_no_match tag (x :: xml) H1). auto.
Qed.

Lemma exec_from_absent tag xml :
  occurs_ci (openTag tag) xml = false ->
  exec_from (re_element tag) O xml = [].
Proof.
  induction xml as [|x xml IH]; intros H; [reflexivity|].
  cbn [occurs_ci] in H. apply orb_false_iff in H as [H1 H2].
  cbn [exec_from]. rewrite (re_element_no_match tag (x :: xml) H1). auto.
Qed.

(** X14.  [extractElementValue] gives the content of the first element
    of the name, trimmed: what stands before the element must not open
    one of that name, and the content ends at the first closing tag. *)
Theorem extractElementValue_first_element (tag : string)
    (pre attrs body rest : jsstring) :
  In tag feedTags ->
  occurs_ci (openTag tag) pre = false ->
  has_char GT_SIGN attrs = false ->
  occurs_ci (closeTag tag) body = false ->
  extractElementValue (pre ++ xmlElement tag attrs body ++ rest) tag
  = Some (trim body).
Proof.
  intros Htag Hpre Hattrs Hbody. unfold extractElementValue.
  rewrite search_gap.
  - assert (exists tl, xmlElement tag attrs body ++ rest = LT_SIGN :: tl)
      as [tl Htl].
    { unfold xmlElement, openTag. rewrite <- !app_assoc. cbn [app]. eauto. }
    pose proof (match_here_xmlElement tag attrs body rest Htag Hattrs Hbody)
      as Hm.
    rewrite Htl in *. cbn [search]. rewrite Hm. reflexivity.
  - intros d t Hsplit Ht.
    apply (re_element_skips_gap tag pre _ d t); try assumption.
    right. unfold xmlElement, openTag. rewrite <- !app_assoc. cbn [app]. eauto.
Qed.

Lemma extractElementValue_first_element_witness :
  extractElementValue
    (js "<title>t</title>" ++
     xmlElement "link" [] (js " https://blog.test/1 ") ++
     js "<link>second</link>")
    "link"
  = Some (js "https://blog.test/1").
Proof.
  rewrite extractElementValue_first_element.
  - vm_compute. reflexivity.
  - cbn. auto.
  - reflexivity.
  - reflexivity.
  - reflexivity.
Defined.

(** X15.  A field that the item does not carry comes out empty: with no
    link element the link of the post is the empty string, with no
    pubDate element the date is that of the empty string, and with no
    description element the text is the provenance line alone. *)
Theorem toPost_missing_fields P (item : jsstring) :
  (occurs_ci (openTag "link") item = false -> link (toPost P item) = []) /\
  (occurs_ci (openTag "pubDate") item = false ->
   pubDateUTC (toPost P item) = Date_parse P []) /\
  (occurs_ci (openTag "description") item = false ->
   description (toPost P item)
   = [LF; LF] ++ js "This post was first seen on " ++ link (toPost P item)).
Proof.
  unfold toPost, extractElementValue. cbn [link pubDateUTC description].
  split; [|split]; intros H; rewrite (search_absent _ _ H); reflexivity.
Qed.

Lemma toPost_missing_fields_witness :
  pubDateUTC (toPost (calmPlatform []) (js "<link>A</link>")) = None /\
  link (toPost (calmPlatform []) (js "<pubDate>x</pubDate>")) = [].
Proof.
  destruct (toPost_missing_fields (calmPlatform []) (js "<link>A</link>"))
    as (_ & H2 & _).
  destruct (toPost_missing_fields (calmPlatform []) (js "<pubDate>x</pubDate>"))
    as (H1 & _).
  split.
  - rewrite H2 by reflexivity. reflexivity.
  - apply H1. reflexivity.
Defined.

(** X16.  A feed that is served but holds no item makes the cycle a
    no-operation: after the request for the feed, no publish call, no
    access to the namespace, one log line. *)
Theorem empty_feed_is_a_no_op P env w (response : Response)
    (rssText : jsstring) :
  URL_valid P (RSS_FEED_URL env) = true ->
  feed P (RSS_FEED_URL env) = inr response ->
  ok response = true -> text response = inr rssText ->
  occurs_ci (openTag "item") rssText = false ->
  processLatestPosts P env w
  = (inr tt,
     {| kv := kv w;
        trace := trace w ++
          [ConsoleLog (js "Fetching all posts from RSS feed...");
           FetchGet (RSS_FEED_URL env);
           ConsoleLog (js "No posts available in the RSS feed.")] |}).
Proof.
  intros Hurl Hfeed Hok Htext Hitems.
  unfold processLatestPosts, fetchAllPosts, fetch_get, extractElements.
  rewrite Hurl, Hfeed. cbn [negb]. unfold_monad. cbn [kv trace].
  rewrite Hok, Htext. cbn [negb]. rewrite (exec_from_absent _ _ Hitems).
  cbn [map kv trace]. now rewrite <- !app_assoc.
Qed.

Lemma empty_feed_is_a_no_op_witness :
  kvAccesses
    (trace (snd (processLatestPosts
                   (calmPlatform (js "<rss><channel></channel></rss>"))
                   env0 emptyWorld)))
  = [].
Proof.
  erewrite empty_feed_is_a_no_op; reflexivity.
Defined.

(** X17.  A feed that is served yields one post per item, in feed
    order: [fetchAllPosts] returns the posts of the items' contents. *)
Theorem fetchAllPosts_one_post_per_item P (url pre : jsstring)
    (blocks : list ItemBlock) (response : Response) (w : World) :
  URL_valid P url = true ->
  feed P url = inr response ->
  ok response = true ->
  text response = inr (pre ++ concat (map renderItemBlock blocks)) ->
  occurs_ci (openTag "item") pre = false ->
  Forall wellFormedItemBlock blocks ->
  fst (fetchAllPosts P url w) = inr (map (toPost P) (map itemBody blocks)).
Proof.
  intros Hurl Hfeed Hok Htext Hpre Hblocks.
  unfold fetchAllPosts, fetch_get. rewrite Hurl, Hfeed. cbn [negb].
  unfold_monad. cbn [kv trace]. rewrite Hok, Htext. cbn [negb fst].
  now rewrite extractElements_itemBlocks.
Qed.

Lemma fetchAllPosts_one_post_per_item_witness :
  fst (fetchAllPosts
         (calmPlatform
            ([] ++ concat (map renderItemBlock
                             [mkItemBlock [] (js "<link>A</link>") [];
                              mkItemBlock [] (js "<link>B</link>") []])))
         (js "https://blog.test/rss") emptyWorld)
  = inr (map (toPost (calmPlatform []))
           [js "<link>A</link>"; js "<link>B</link>"]).
Proof.
  erewrite fetchAllPosts_one_post_per_item;
    try reflexivity; repeat constructor.
Defined.

(* ===================================================================== *)
(** ** Further properties: character references                           *)
(* ===================================================================== *)

Lemma toNumber_exact n : n < 2 ^ 53 -> toNumber n = Some n.
Proof.
  intros H. unfold toNumber.
  assert (N.size n <= 53) as Hsize.
  { destruct (N.eq_dec n 0) as [->|Hn]; [cbn; lia|].
    rewrite N.size_log2 by assumption.
    apply N.le_succ_l, N.log2_lt_pow2; lia. }
  apply N.leb_le in Hsize. now rewrite Hsize.
Qed.

Lemma forallb_no_char (p : N -> bool) c xs :
  forallb p xs = true -> p c = false -> has_char c xs = false.
Proof.
  intros Hxs Hc. induction xs as [|x xs IH]; [reflexivity|].
  cbn [forallb] in Hxs. apply andb_true_iff in Hxs as [Hx Hxs].
  apply has_char_cons. split; [congruence | auto].
Qed.

(** A greedy repetition runs through the code units of its class and
    stops at the first other one, when the rest matches there. *)
Lemma star_greedy_run {R} p (k : jsstring -> option R) xs c rest v :
  forallb p xs = true -> p c = false -> k (c :: rest) = Some v ->
  star_greedy p k (xs ++ c :: rest) = Some v.
Proof.
  intros Hxs Hc Hk. induction xs as [|x xs IH]; cbn [app star_greedy].
  - now rewrite Hc.
  - cbn [forallb] in Hxs. apply andb_true_iff in Hxs as [Hx Hxs].
    now rewrite Hx, IH.
Qed.

(** A pattern that starts with a literal and fails at the head does
    nothing to a text that has the literal nowhere else. *)
Lemma replace_all_head_only r c f x s :
  first_char r = Some c -> match_here r (x :: s) = None ->
  has_char c s = false -> replace_all r f (x :: s) = x :: s.
Proof.
  intros Hfirst Hhead Hs.
  rewrite replace_all_no_match by assumption.
  now rewrite (replace_all_absent r c).
Qed.

Lemma replace_all_whole r f m cs :
  m <> [] -> match_here r (m ++ []) = Some ([], cs) ->
  match_here r [] = None -> replace_all r f m = f cs m.
Proof.
  intros Hm Hmatch Hnil. rewrite <- (app_nil_r m) at 1.
  rewrite (replace_all_match _ _ _ _ cs Hm Hmatch).
  unfold replace_all. cbn [replace_from]. rewrite Hnil. apply app_nil_r.
Qed.

Lemma replace_all_single r f c0 c :
  first_char r = Some c0 -> match_here r [c] = None ->
  replace_all r f [c] = [c].
Proof.
  intros Hfirst Hnone. rewrite replace_all_no_match by assumption.
  now rewrite (replace_all_absent r c0).
Qed.

Lemma re_hex_ref_single f c : replace_all re_hex_ref f [c] = [c].
Proof.
  apply (replace_all_single _ _ AMPERSAND); [reflexivity|].
  unfold match_here. destruct (N.eq_dec c AMPERSAND) as [->|H];
    [reflexivity|].
  now apply (first_char_None_on_other re_hex_ref AMPERSAND).
Qed.

(** The named entities and [&#39;] leave a numeric reference alone,
    the decimal reference to 39 apart. *)
Lemma named_passes_keep_reference tl :
  has_char AMPERSAND tl = false ->
  match_here (lit "&#39;") (AMPERSAND :: 35 :: tl) = None ->
  let s := AMPERSAND :: 35 :: tl in
  replace_lit "&divide;" [0xF7]
   (replace_lit "&times;" [0xD7]
    (replace_lit "&yen;" [0xA5]
     (replace_lit "&pound;" [0xA3]
      (replace_lit "&euro;" [0x20AC]
       (replace_lit "&reg;" [0xAE]
        (replace_lit "&copy;" [0xA9]
         (replace_lit "&ndash;" [0x2013]
          (replace_lit "&mdash;" [0x2014]
           (replace_lit "&rdquo;" [0x201D]
            (replace_lit "&ldquo;" [0x201C]
             (replace_lit "&lsquo;" [0x2018]
              (replace_lit "&rsquo;" [0x2019]
               (replace_lit "&#39;" (js "'")
                (replace_lit "&quot;" [QUOTE]
                 (replace_lit "&amp;" (js "&")
                  (replace_lit "&gt;" (js ">")
                   (replace_lit "&lt;" (js "<") s)))))))))))))))))
  = s.
Proof.
  intros Htl H39. cbv zeta. unfold replace_lit.
  assert (has_char AMPERSAND (35 :: tl) = false) as Hs.
  { apply has_char_cons. split; [discriminate | assumption]. }
  repeat (rewrite (replace_all_head_only _ AMPERSAND _ AMPERSAND (35 :: tl));
          [|reflexivity | first [exact H39 | reflexivity] | exact Hs]).
  reflexivity.
Qed.

(** X18.  A decimal character reference decodes to the single code
    unit whose number is the reference's, modulo 65536: a reference to
    a character beyond the first 65536 comes out as another character. *)
Theorem decimal_reference_decodes (ds : jsstring) :
  ds <> [] -> forallb digit ds = true -> digits_value 10 ds < 2 ^ 53 ->
  decodeHtmlEntities (js "&#" ++ ds ++ js ";")
  = [digits_value 10 ds mod 65536].
Proof.
  intros Hne Hds Hval.
  destruct (decide (ds = js "39")) as [->|H39].
  { vm_compute. reflexivity. }
  change (js "&#" ++ ds ++ js ";") with (AMPERSAND :: 35 :: ds ++ [59]).
  assert (has_char AMPERSAND (ds ++ [59]) = false) as Hamp.
  { apply has_char_app. split; [|reflexivity].
    now apply (forallb_no_char digit). }
  assert (match_here (lit "&#39;") (AMPERSAND :: 35 :: ds ++ [59]) = None)
    as Hlit.
  { unfold match_here, AMPERSAND.
    change (lit "&#39;")
      with (Seq (Char 38) (Seq (Char 35) (Seq (Char 51)
              (Seq (Char 57) (Char 59))))).
    destruct ds as [|d1 [|d2 [|d3 ds]]]; [congruence|..];
      cbn [matcher app]; rewrite !N.eqb_refl.
    - destruct (d1 =? 51); reflexivity.
    - destruct (d1 =? 51) eqn:E1; [|reflexivity].
      destruct (d2 =? 57) eqn:E2; [|reflexivity].
      apply N.eqb_eq in E1, E2. subst. exfalso. now apply H39.
    - destruct (d1 =? 51); [|reflexivity].
      destruct (d2 =? 57); [|reflexivity].
      cbn [forallb] in Hds. apply andb_true_iff in Hds as [_ Hds].
      apply andb_true_iff in Hds as [_ Hds].
      apply andb_true_iff in Hds as [Hd3 _].
      destruct (d3 =? 59) eqn:E3; [|reflexivity].
      apply N.eqb_eq in E3. subst. discriminate. }
  unfold decodeHtmlEntities. cbv zeta.
  rewrite (named_passes_keep_reference (ds ++ [59]) Hamp Hlit).
  rewrite (replace_all_whole re_dec_ref _ (AMPERSAND :: 35 :: ds ++ [59])
             [(1%nat, ds)]).
  - unfold fromCharCode_dec. cbn [capture Nat.eqb].
    rewrite re_hex_ref_single, toNumber_exact by assumption. reflexivity.
  - discriminate.
  - rewrite app_nil_r. unfold match_here, AMPERSAND.
    change re_dec_ref
      with (Seq (Seq (Char 38) (Char 35))
              (Seq (Group 1 (Plus digit)) (Char 59))).
    destruct ds as [|d1 ds]; [congruence|].
    cbn [forallb] in Hds. apply andb_true_iff in Hds as [Hd1 Hds].
    cbn [matcher app]. rewrite !N.eqb_refl, Hd1.
    erewrite star_greedy_run; [reflexivity | exact Hds | reflexivity |].
    rewrite N.eqb_refl.
    replace (length (d1 :: ds ++ [59%N]) - length [59%N])%nat
      with (length (d1 :: ds))
      by (cbn [length]; rewrite length_app; cbn [length]; lia).
    change (d1 :: ds ++ [59]) with ((d1 :: ds) ++ [59]).
    now rewrite take_app_length.
  - reflexivity.
Qed.

Lemma decimal_reference_decodes_witness :
  decodeHtmlEntities (js "&#" ++ js "128512" ++ js ";") = [0xF600].
Proof.
  rewrite decimal_reference_decodes.
  - vm_compute. reflexivity.
  - discriminate.
  - reflexivity.
  - vm_compute. reflexivity.
Defined.

(** X19.  A hexadecimal character reference decodes to the single code
    unit whose number is the reference's, modulo 65536. *)
Theorem hex_reference_decodes (hs : jsstring) :
  hs <> [] -> forallb hexdigit hs = true -> digits_value 16 hs < 2 ^ 53 ->
  decodeHtmlEntities (js "&#x" ++ hs ++ js ";")
  = [digits_value 16 hs mod 65536].
Proof.
  intros Hne Hhs Hval.
  change (js "&#x" ++ hs ++ js ";")
    with (AMPERSAND :: 35 :: (120 :: hs ++ [59])).
  assert (has_char AMPERSAND (120 :: hs ++ [59]) = false) as Hamp.
  { apply has_char_cons. split; [discriminate|].
    apply has_char_app. split; [|reflexivity].
    now apply (forallb_no_char hexdigit). }
  unfold decodeHtmlEntities. cbv zeta.
  rewrite (named_passes_keep_reference (120 :: hs ++ [59]) Hamp eq_refl).
  rewrite (replace_all_head_only re_dec_ref AMPERSAND);
    [|reflexivity | reflexivity
     | apply has_char_cons; split; [discriminate | exact Hamp]].
  change (AMPERSAND :: 35 :: 120 :: hs ++ [59])
    with ((AMPERSAND :: 35 :: 120 :: hs) ++ [59]).
  rewrite (replace_all_whole re_hex_ref _ _ [(1%nat, hs)]).
  - unfold fromCharCode_hex. cbn [capture Nat.eqb].
    rewrite toNumber_exact by assumption. reflexivity.
  - discriminate.
  - rewrite app_nil_r. unfold match_here, AMPERSAND.
    change re_hex_ref
      with (Seq (Seq (Char 38) (Seq (Char 35) (Char 120)))
              (Seq (Group 1 (Plus hexdigit)) (Char 59))).
    destruct hs as [|h1 hs]; [congruence|].
    cbn [forallb] in Hhs. apply andb_true_iff in Hhs as [Hh1 Hhs].
    cbn [matcher app]. rewrite !N.eqb_refl, Hh1.
    erewrite star_greedy_run; [reflexivity | exact Hhs | reflexivity |].
    rewrite N.eqb_refl.
    replace (length (h1 :: hs ++ [59%N]) - length [59%N])%nat
      with (length (h1 :: hs))
      by (cbn [length]; rewrite length_app; cbn [length]; lia).
    change (h1 :: hs ++ [59]) with ((h1 :: hs) ++ [59]).
    now rewrite take_app_length.
  - reflexivity.
Qed.

Lemma hex_reference_decodes_witness :
  decodeHtmlEntities (js "&#x" ++ js "1F600" ++ js ";") = [0xF600].
Proof.
  rewrite hex_reference_decodes.
  - vm_compute. reflexivity.
  - discriminate.
  - reflexivity.
  - vm_compute. reflexivity.
Defined.

(* ===================================================================== *)
(** ** Character references in context                                    *)
(* ===================================================================== *)

(** The table is the code's: the literal passes of
    [decodeHtmlEntities] are the table's entries, in order. *)
Lemma decodeHtmlEntities_table str :
  decodeHtmlEntities str
  = replace_all re_hex_ref (fun cs _ => fromCharCode_hex (capture cs 1))
      (replace_all re_dec_ref (fun cs _ => fromCharCode_dec (capture cs 1))
         (fold_left (fun s e => replace_lit (fst e) (snd e) s)
            namedReferences str)).
Proof. reflexivity. Qed.










(** *** One piece at the head of a text, through all the passes *)











(** Why the proviso on ampersands below: the pass of [&amp;] is the
    third, and the ampersand it puts out is read again by the passes
    behind it, not by the two before it. *)
Remark decoded_ampersand_is_read_again :
  decodeHtmlEntities (js "&amp;quot;") = [QUOTE] /\
  decodeHtmlEntities (js "&amp;lt;") = js "&lt;".
Proof. split; vm_compute; reflexivity. Qed.



(* ===================================================================== *)
(** ** Further properties: hyperlinks and images                          *)
(* ===================================================================== *)

Lemma has_char_forallb c s :
  has_char c s = false -> forallb (not_char c) s = true.
Proof.
  induction s as [|x s IH]; [reflexivity|]. intros H.
  apply has_char_cons in H as [Hx Hs]. cbn [forallb].
  rewrite (IH Hs), andb_true_r. unfold not_char.
  apply negb_true_iff, N.eqb_neq. exact Hx.
Qed.

(** A repetition fails when the rest of the pattern fails at every
    point it can stop at. *)
Lemma star_greedy_none_run {R} p (k : jsstring -> option R) zs c rest :
  p c = false ->
  (forall d t, zs = d ++ t -> k (t ++ c :: rest) = None) ->
  star_greedy p k (zs ++ c :: rest) = None.
Proof.
  intros Hc. induction zs as [|x zs IH]; intros H; cbn [app star_greedy].
  - rewrite Hc. exact (H [] [] eq_refl).
  - rewrite IH by (intros d t ->; exact (H (x :: d) t eq_refl)).
    pose proof (H [] (x :: zs) eq_refl) as H0. cbn [app] in H0.
    rewrite H0. now destruct (p x).
Qed.

(** A greedy repetition gives back code units until the rest of the
    pattern succeeds: the last point where it does wins. *)
Lemma star_greedy_last {R} p (k : jsstring -> option R) xs y ys c rest v :
  forallb p xs = true -> p y = true -> p c = false ->
  (forall d t, ys = d ++ t -> k (t ++ c :: rest) = None) ->
  k (y :: ys ++ c :: rest) = Some v ->
  star_greedy p k (xs ++ y :: ys ++ c :: rest) = Some v.
Proof.
  intros Hxs Hy Hc Hnone Hsome.
  induction xs as [|x xs IH]; cbn [app star_greedy].
  - rewrite Hy, star_greedy_none_run by assumption. exact Hsome.
  - cbn [forallb] in Hxs. apply andb_true_iff in Hxs as [Hx Hxs].
    now rewrite Hx, IH.
Qed.

Lemma star_lazy_first_of {R} p (K : jsstring -> option R) body tail v :
  forallb p body = true ->
  (forall d t, body = d ++ t -> t <> [] -> K (t ++ tail) = None) ->
  K tail = Some v ->
  star_lazy p K (body ++ tail) = Some v.
Proof.
  intros Hp Hnone Hsome. induction body as [|x body IH].
  - cbn [app]. destruct tail; cbn [star_lazy]; now rewrite Hsome.
  - pose proof (Hnone [] (x :: body) eq_refl ltac:(discriminate)) as H0.
    cbn [forallb] in Hp. apply andb_true_iff in Hp as [Hx Hp].
    cbn [app] in H0. cbn [app star_lazy]. rewrite H0, Hx.
    apply IH; [assumption|]. intros d t -> Ht.
    now apply (Hnone (x :: d) t).
Qed.

Lemma suffixes_cons {R} (k : jsstring -> option R) x l tail :
  k (x :: l ++ tail) = None ->
  (forall d t, l = d ++ t -> k (t ++ tail) = None) ->
  forall d t, x :: l = d ++ t -> k (t ++ tail) = None.
Proof.
  intros Hx Hl [|y d] t E; cbn [app] in E.
  - subst t. exact Hx.
  - injection E as _ E. exact (Hl d t E).
Qed.

Lemma suffixes_nil {R} (k : jsstring -> option R) tail :
  k tail = None -> forall d t, [] = d ++ t -> k (t ++ tail) = None.
Proof.
  intros H d t E. symmetry in E. apply app_eq_nil in E as [_ ->]. exact H.
Qed.

Lemma suffixes_app {R} (k : jsstring -> option R) l1 l2 tail :
  (forall d t, l1 = d ++ t -> t <> [] -> k (t ++ l2 ++ tail) = None) ->
  (forall d t, l2 = d ++ t -> k (t ++ tail) = None) ->
  forall d t, l1 ++ l2 = d ++ t -> k (t ++ tail) = None.
Proof.
  intros H1 H2 d t E. apply app_eq_app in E as [l [[E1 E2]|[E1 E2]]].
  - subst. destruct l as [|z l].
    + cbn [app]. apply (H2 [] l2 eq_refl).
    + rewrite <- app_assoc. apply (H1 d (z :: l) eq_refl). discriminate.
  - subst. exact (H2 l t eq_refl).
Qed.

(** A pattern without the delimiter [c] cannot reach across it. *)
Lemma prefix_ci_before pat t c rest :
  Forall (fun p => canonicalize p <> canonicalize c) pat ->
  prefix_ci pat (t ++ c :: rest) = true -> prefix_ci pat t = true.
Proof.
  intros Hpat. revert pat Hpat.
  induction t as [|x t IH]; intros pat Hpat H.
  - destruct pat as [|p pat]; [reflexivity|]. exfalso.
    cbn [app prefix_ci] in H. apply andb_true_iff in H as [H _].
    apply N.eqb_eq in H. inversion Hpat; subst. congruence.
  - destruct pat as [|p pat]; [reflexivity|].
    cbn [app prefix_ci] in *. apply andb_true_iff in H as [H1 H2].
    rewrite H1. inversion Hpat; subst. now apply IH.
Qed.

(** An attribute name followed by the quote cannot start inside a value
    that contains neither the name nor a quote. *)
Lemma attribute_not_inside name value rest d t :
  Forall (fun p => canonicalize p <> canonicalize QUOTE) name ->
  name <> [] ->
  occurs_ci name value = false ->
  value = d ++ t -> t <> [] ->
  prefix_ci name (t ++ QUOTE :: rest) = false.
Proof.
  intros Hname Hne Hocc -> Ht.
  destruct (prefix_ci name (t ++ QUOTE :: rest)) eqn:E; [|reflexivity].
  apply prefix_ci_before in E; [|assumption].
  now rewrite (occurs_ci_suffix _ _ _ Hocc Ht) in E.
Qed.

Lemma matcher_Group_Plus {R} i p (k : jsstring -> captures -> option R)
    x s cs :
  matcher (Group i (Plus p)) k (x :: s) cs
  = if p x
    then star_greedy p
           (fun s' =>
              k s' ((i, take (length (x :: s) - length s') (x :: s)) :: cs)) s
    else None.
Proof. reflexivity. Qed.

Lemma matcher_Group_Star {R} i p (k : jsstring -> captures -> option R) s cs :
  matcher (Group i (Star p)) k s cs
  = star_greedy p
      (fun s' => k s' ((i, take (length s - length s') s) :: cs)) s.
Proof. reflexivity. Qed.

Lemma take_front (a b : jsstring) :
  take (length (a ++ b) - length b) (a ++ b) = a.
Proof.
  rewrite length_app.
  replace (length a + length b - length b)%nat with (length a) by lia.
  apply take_app_length.
Qed.

Lemma re_anchor_unfold :
  re_anchor
  = Seq (litI "<a")
      (Seq (Star (not_char GT_SIGN))
         (Seq (litI "href=")
            (Seq (CharI QUOTE)
               (Seq (Group 1 (Plus (not_char QUOTE)))
                  (Seq (CharI QUOTE)
                     (Seq (Star (not_char GT_SIGN))
                        (Seq (CharI GT_SIGN)
                           (Seq (Group 2 (StarLazy dot)) (litI "</a>"))))))))).
Proof. reflexivity. Qed.

Lemma anchorTag_shape attrs url linkText rest :
  anchorTag attrs url linkText ++ rest
  = js "<a" ++ attrs
    ++ 104 :: (js "ref=" ++ QUOTE :: url ++ [QUOTE])
    ++ GT_SIGN :: linkText ++ js "</a>" ++ rest.
Proof.
  unfold anchorTag, quoted.
  repeat (rewrite <- app_assoc; cbn [app]). reflexivity.
Qed.

Lemma no_lt_no_closing (name : jsstring) (s : jsstring) d t rest :
  has_char LT_SIGN s = false -> s = d ++ t -> t <> [] ->
  prefix_ci (LT_SIGN :: name) (t ++ rest) = false.
Proof.
  intros Hs -> Ht. destruct t as [|c t]; [congruence|].
  apply has_char_app in Hs as [_ Hs]. apply has_char_cons in Hs as [Hc _].
  cbn [app prefix_ci].
  destruct (canonicalize c =? canonicalize LT_SIGN) eqn:E; [|reflexivity].
  apply N.eqb_eq, canonicalize_nonletter in E; [congruence | reflexivity].
Qed.

(** On a hyperlink the anchor pattern matches the whole element and
    captures the URL and the link text. *)
Lemma match_here_anchor attrs url linkText rest :
  has_char GT_SIGN attrs = false ->
  url <> [] -> has_char QUOTE url = false -> has_char GT_SIGN url = false ->
  occurs_ci (js "href=") url = false ->
  forallb dot linkText = true -> has_char LT_SIGN linkText = false ->
  match_here re_anchor (anchorTag attrs url linkText ++ rest)
  = Some (rest, [(2%nat, linkText); (1%nat, url)]).
Proof.
  intros Hattrs Hurl Hquote Hgt Hhref Hdot Hlt.
  unfold match_here. rewrite anchorTag_shape, re_anchor_unfold.
  rewrite matcher_Seq, matcher_litI, prefix_ci_refl, drop_app_length.
  rewrite matcher_Seq, matcher_Star.
  match goal with |- star_greedy _ ?k _ = _ => set (K := k) end.
  apply (star_greedy_last _ K).
  - now apply has_char_forallb.
  - reflexivity.
  - reflexivity.
  - change (js "ref=" ++ QUOTE :: url ++ [QUOTE])
      with (114 :: 101 :: 102 :: 61 :: QUOTE :: url ++ [QUOTE]).
    repeat (apply (suffixes_cons K);
            [unfold K; rewrite matcher_Seq, matcher_litI; reflexivity|]).
    apply (suffixes_app K).
    + intros d t Hsplit Ht. unfold K. rewrite matcher_Seq, matcher_litI.
      cbn [app].
      rewrite (attribute_not_inside (js "href=") url _ d t);
        try assumption; [reflexivity | repeat constructor; discriminate
                        | discriminate].
    + apply (suffixes_cons K);
        [unfold K; rewrite matcher_Seq, matcher_litI; reflexivity|].
      apply (suffixes_nil K). unfold K.
      rewrite matcher_Seq, matcher_litI. reflexivity.
  - unfold K.
    change (104 :: (js "ref=" ++ QUOTE :: url ++ [QUOTE])
            ++ GT_SIGN :: linkText ++ js "</a>" ++ rest)
      with (js "href=" ++ QUOTE
            :: (url ++ [QUOTE]) ++ GT_SIGN :: linkText ++ js "</a>" ++ rest).
    rewrite <- app_assoc. cbn [app].
    rewrite matcher_Seq, matcher_litI, prefix_ci_refl, drop_app_length.
    rewrite matcher_Seq, matcher_CharI_cons, N.eqb_refl.
    destruct url as [|u1 url]; [congruence|].
    apply has_char_cons in Hquote as [Hu1 Hquote].
    cbn [app]. rewrite matcher_Seq, matcher_Group_Plus.
    unfold not_char at 1. apply N.eqb_neq in Hu1. rewrite Hu1. cbn [negb].
    apply star_greedy_upto; [assumption|].
    rewrite matcher_Seq, matcher_CharI_cons, N.eqb_refl.
    rewrite matcher_Seq, matcher_Star.
    apply (star_greedy_upto GT_SIGN _ []); [reflexivity|].
    rewrite matcher_Seq, matcher_CharI_cons, N.eqb_refl.
    rewrite matcher_Seq, matcher_Group_StarLazy.
    apply star_lazy_first_of; [assumption | |].
    + intros d t Hsplit Ht. rewrite matcher_litI.
      change (js "</a>") with (LT_SIGN :: js "/a>") at 1.
      now rewrite (no_lt_no_closing _ linkText d t).
    + rewrite matcher_litI, prefix_ci_refl, drop_app_length.
      rewrite take_front.
      change (u1 :: url ++ QUOTE :: GT_SIGN :: linkText ++ js "</a>" ++ rest)
        with ((u1 :: url)
              ++ QUOTE :: GT_SIGN :: linkText ++ js "</a>" ++ rest).
      now rewrite take_front.
Qed.

(** A pattern that opens with [<] leaves a text with two [<] as it is
    when it matches at neither. *)
Lemma replace_all_two_lt r f p1 p2 p3 :
  first_char r = Some LT_SIGN ->
  has_char LT_SIGN p1 = false -> has_char LT_SIGN p2 = false ->
  has_char LT_SIGN p3 = false ->
  match_here r (LT_SIGN :: p2 ++ LT_SIGN :: p3) = None ->
  match_here r (LT_SIGN :: p3) = None ->
  replace_all r f (p1 ++ LT_SIGN :: p2 ++ LT_SIGN :: p3)
  = p1 ++ LT_SIGN :: p2 ++ LT_SIGN :: p3.
Proof.
  intros Hfirst H1 H2 H3 Hm1 Hm2.
  rewrite (replace_all_prefix r LT_SIGN) by assumption.
  rewrite replace_all_no_match by assumption.
  rewrite (replace_all_prefix r LT_SIGN) by assumption.
  rewrite replace_all_no_match by assumption.
  now rewrite (replace_all_absent r LT_SIGN).
Qed.

Lemma anchorTag_two_lt attrs url linkText b :
  anchorTag attrs url linkText ++ b
  = LT_SIGN
    :: (97 :: attrs ++ js "href=" ++ QUOTE :: url ++ QUOTE :: GT_SIGN
        :: linkText)
    ++ LT_SIGN :: (js "/a>" ++ b).
Proof.
  unfold anchorTag, quoted.
  repeat (rewrite <- app_assoc; cbn [app]). reflexivity.
Qed.

(** X20.  A hyperlink becomes its text followed by its URL in
    parentheses: for an anchor whose quoted [href] is its last
    attribute, between texts without markup. *)
Theorem hyperlink_becomes_text_and_url (a b attrs url linkText : jsstring) :
  no_markup a -> no_markup b ->
  tagFree attrs -> attrValue url -> url <> [] ->
  occurs_ci (js "href=") url = false ->
  no_markup linkText -> forallb dot linkText = true ->
  convertHtmlToText (a ++ anchorTag attrs url linkText ++ b)
  = trim (a ++ linkText ++ js " (" ++ url ++ js ")" ++ b).
Proof.
  intros [Ha1 Ha2] [Hb1 Hb2] (Hat1 & Hat2 & Hat3)
    [(Hu1 & Hu2 & Hu3) Hu4] Hne Hhref [Ht1 Ht2] Hdot.
  unfold convertHtmlToText. cbv zeta.
  rewrite decodeHtmlEntities_plain.
  2:{ unfold anchorTag, quoted. rewrite !has_char_app.
      repeat split; try assumption; reflexivity. }
  unfold structuralPasses. cbv zeta.
  assert (has_char LT_SIGN
            (97 :: attrs ++ js "href=" ++ QUOTE :: url ++ QUOTE :: GT_SIGN
             :: linkText) = false) as Hmid.
  { apply has_char_cons. split; [discriminate|].
    rewrite !has_char_app. split; [assumption|]. split; [reflexivity|].
    apply has_char_cons. split; [discriminate|].
    apply has_char_app. split; [assumption|].
    apply has_char_cons. split; [discriminate|].
    apply has_char_cons. split; [discriminate | assumption]. }
  assert (has_char LT_SIGN (js "/a>" ++ b) = false) as Hend.
  { apply has_char_app. split; [reflexivity | assumption]. }
  rewrite anchorTag_two_lt.
  rewrite (replace_all_two_lt re_block);
    [|reflexivity | assumption | assumption | assumption
     | reflexivity | reflexivity].
  rewrite <- anchorTag_two_lt.
  rewrite (replace_all_prefix re_anchor LT_SIGN) by (reflexivity || assumption).
  rewrite (replace_all_match re_anchor _ _ _
             [(2%nat, linkText); (1%nat, url)]).
  2:{ unfold anchorTag. discriminate. }
  2:{ now apply match_here_anchor. }
  rewrite (replace_all_absent re_anchor LT_SIGN) by (reflexivity || assumption).
  cbn [capture Nat.eqb]. rewrite <- !app_assoc.
  assert (has_char LT_SIGN
            (a ++ linkText ++ js " (" ++ url ++ js ")" ++ b) = false) as H.
  { rewrite !has_char_app. repeat split; try assumption; reflexivity. }
  repeat (rewrite (replace_all_absent _ LT_SIGN _
                     (a ++ linkText ++ js " (" ++ url ++ js ")" ++ b))
            by (reflexivity || assumption)).
  reflexivity.
Qed.

Lemma hyperlink_becomes_text_and_url_witness :
  convertHtmlToText
    (js "See " ++
     anchorTag (js " class=x ") (js "http://x.test") (js "click") ++
     js " now")
  = js "See click (http://x.test) now".
Proof.
  rewrite hyperlink_becomes_text_and_url.
  - vm_compute. reflexivity.
  - split; reflexivity.
  - split; reflexivity.
  - repeat split.
  - repeat split.
  - discriminate.
  - reflexivity.
  - split; reflexivity.
  - reflexivity.
Defined.

Lemma re_img_unfold :
  re_img
  = Seq (litI "<img")
      (Seq (Star (not_char GT_SIGN))
         (Seq (litI "alt=")
            (Seq (CharI QUOTE)
               (Seq (Group 1 (Star (not_char QUOTE)))
                  (Seq (CharI QUOTE)
                     (Seq (Star (not_char GT_SIGN))
                        (Seq (litI "src=")
                           (Seq (CharI QUOTE)
                              (Seq (Group 2 (Plus (not_char QUOTE)))
                                 (Seq (CharI QUOTE)
                                    (Seq (Star (not_char GT_SIGN))
                                       (CharI GT_SIGN)))))))))))).
Proof. reflexivity. Qed.

Lemma imgTag_shape attrs alt src rest :
  imgTag attrs alt src ++ rest
  = js "<img" ++ attrs
    ++ 97 :: (108 :: 116 :: 61 :: QUOTE
              :: alt ++ QUOTE :: 32 :: 115 :: 114 :: 99 :: 61 :: QUOTE
              :: src ++ [QUOTE])
    ++ GT_SIGN :: rest.
Proof.
  unfold imgTag, quoted.
  repeat (rewrite <- app_assoc; cbn [app]). reflexivity.
Qed.

(** On an image with [alt] before [src] the image pattern matches the
    whole tag and captures both values. *)
Lemma match_here_img attrs alt src rest :
  has_char GT_SIGN attrs = false ->
  has_char QUOTE alt = false -> has_char QUOTE src = false -> src <> [] ->
  occurs_ci (js "alt=") alt = false -> occurs_ci (js "alt=") src = false ->
  occurs_ci (js "src=") src = false ->
  match_here re_img (imgTag attrs alt src ++ rest)
  = Some (rest, [(2%nat, src); (1%nat, alt)]).
Proof.
  intros Hattrs Hqa Hqs Hsrc Haa Has Hss.
  unfold match_here. rewrite imgTag_shape, re_img_unfold.
  rewrite matcher_Seq, matcher_litI, prefix_ci_refl, drop_app_length.
  rewrite matcher_Seq, matcher_Star.
  match goal with |- star_greedy _ ?k _ = _ => set (K := k) end.
  apply (star_greedy_last _ K).
  - now apply has_char_forallb.
  - reflexivity.
  - reflexivity.
  - repeat (apply (suffixes_cons K);
            [unfold K; rewrite matcher_Seq, matcher_litI; reflexivity|]).
    apply (suffixes_app K).
    + intros d t Hsplit Ht. unfold K. rewrite matcher_Seq, matcher_litI.
      cbn [app].
      rewrite (attribute_not_inside (js "alt=") alt _ d t);
        try assumption; [reflexivity | repeat constructor; discriminate
                        | discriminate].
    + repeat (apply (suffixes_cons K);
              [unfold K; rewrite matcher_Seq, matcher_litI; reflexivity|]).
      apply (suffixes_app K).
      * intros d t Hsplit Ht. unfold K. rewrite matcher_Seq, matcher_litI.
        cbn [app].
        rewrite (attribute_not_inside (js "alt=") src _ d t);
          try assumption; [reflexivity | repeat constructor; discriminate
                          | discriminate].
      * apply (suffixes_cons K);
          [unfold K; rewrite matcher_Seq, matcher_litI; reflexivity|].
        apply (suffixes_nil K). unfold K.
        rewrite matcher_Seq, matcher_litI. reflexivity.
  - unfold K. clear K.
    change (97 :: (108 :: 116 :: 61 :: QUOTE
                   :: alt ++ QUOTE :: 32 :: 115 :: 114 :: 99 :: 61 :: QUOTE
                   :: src ++ [QUOTE]) ++ GT_SIGN :: rest)
      with (js "alt=" ++ QUOTE
            :: (alt ++ QUOTE :: 32 :: 115 :: 114 :: 99 :: 61 :: QUOTE
                :: src ++ [QUOTE]) ++ GT_SIGN :: rest).
    repeat (rewrite <- app_assoc; cbn [app]).
    rewrite matcher_Seq, matcher_litI, prefix_ci_refl, drop_app_length.
    rewrite matcher_Seq, matcher_CharI_cons, N.eqb_refl.
    rewrite matcher_Seq, matcher_Group_Star.
    apply star_greedy_upto; [assumption|].
    rewrite matcher_Seq, matcher_CharI_cons, N.eqb_refl.
    rewrite matcher_Seq, matcher_Star.
    match goal with |- star_greedy _ ?k _ = _ => set (K := k) end.
    replace (32 :: 115 :: 114 :: 99 :: 61 :: QUOTE :: src ++ QUOTE
             :: GT_SIGN :: rest)
      with ([32] ++ 115 :: (114 :: 99 :: 61 :: QUOTE :: src ++ [QUOTE])
            ++ GT_SIGN :: rest)
      by (cbn [app]; now rewrite <- app_assoc).
    apply (star_greedy_last _ K).
    + reflexivity.
    + reflexivity.
    + reflexivity.
    + repeat (apply (suffixes_cons K);
              [unfold K; rewrite matcher_Seq, matcher_litI; reflexivity|]).
      apply (suffixes_app K).
      * intros d t Hsplit Ht. unfold K. rewrite matcher_Seq, matcher_litI.
        cbn [app].
        rewrite (attribute_not_inside (js "src=") src _ d t);
          try assumption; [reflexivity | repeat constructor; discriminate
                          | discriminate].
      * apply (suffixes_cons K);
          [unfold K; rewrite matcher_Seq, matcher_litI; reflexivity|].
        apply (suffixes_nil K). unfold K.
        rewrite matcher_Seq, matcher_litI. reflexivity.
    + unfold K. clear K.
      change (115 :: (114 :: 99 :: 61 :: QUOTE :: src ++ [QUOTE])
              ++ GT_SIGN :: rest)
        with (js "src=" ++ QUOTE :: (src ++ [QUOTE]) ++ GT_SIGN :: rest).
      repeat (rewrite <- app_assoc; cbn [app]).
      rewrite matcher_Seq, matcher_litI, prefix_ci_refl, drop_app_length.
      rewrite matcher_Seq, matcher_CharI_cons, N.eqb_refl.
      destruct src as [|s1 src]; [congruence|].
      apply has_char_cons in Hqs as [Hs1 Hqs].
      cbn [app]. rewrite matcher_Seq, matcher_Group_Plus.
      unfold not_char at 1. apply N.eqb_neq in Hs1. rewrite Hs1. cbn [negb].
      apply star_greedy_upto; [assumption|].
      rewrite matcher_Seq, matcher_CharI_cons, N.eqb_refl.
      rewrite matcher_Seq, matcher_Star.
      apply (star_greedy_upto GT_SIGN _ []); [reflexivity|].
      rewrite matcher_CharI_cons, N.eqb_refl.
      rewrite take_front.
      change (s1 :: src ++ QUOTE :: GT_SIGN :: rest)
        with ((s1 :: src) ++ QUOTE :: GT_SIGN :: rest).
      now rewrite take_front.
Qed.

Lemma replace_all_one_lt r f p1 p2 :
  first_char r = Some LT_SIGN ->
  has_char LT_SIGN p1 = false -> has_char LT_SIGN p2 = false ->
  match_here r (LT_SIGN :: p2) = None ->
  replace_all r f (p1 ++ LT_SIGN :: p2) = p1 ++ LT_SIGN :: p2.
Proof.
  intros Hfirst H1 H2 Hm.
  rewrite (replace_all_prefix r LT_SIGN) by assumption.
  rewrite replace_all_no_match by assumption.
  now rewrite (replace_all_absent r LT_SIGN).
Qed.

Lemma imgTag_one_lt attrs alt src b :
  imgTag attrs alt src ++ b
  = LT_SIGN
    :: 105 :: 109 :: 103
    :: attrs ++ js "alt=" ++ quoted alt ++ js " src=" ++ quoted src
       ++ js ">" ++ b.
Proof.
  unfold imgTag. repeat (rewrite <- app_assoc; cbn [app]). reflexivity.
Qed.

(** X21.  An image whose quoted [alt] stands right before its quoted
    [src] becomes the alternative text in brackets followed by the URL
    in parentheses; an empty [alt] gives empty brackets. *)
Theorem image_becomes_alt_and_url (a b attrs alt src : jsstring) :
  no_markup a -> no_markup b ->
  tagFree attrs -> attrValue alt -> attrValue src -> src <> [] ->
  occurs_ci (js "alt=") alt = false -> occurs_ci (js "alt=") src = false ->
  occurs_ci (js "src=") src = false ->
  convertHtmlToText (a ++ imgTag attrs alt src ++ b)
  = trim (a ++ js "[" ++ alt ++ js "] (" ++ src ++ js ")" ++ b).
Proof.
  intros [Ha1 Ha2] [Hb1 Hb2] (Hat1 & Hat2 & Hat3)
    [(Hl1 & Hl2 & Hl3) Hl4] [(Hs1 & Hs2 & Hs3) Hs4] Hne Haa Has Hss.
  unfold convertHtmlToText. cbv zeta.
  rewrite decodeHtmlEntities_plain.
  2:{ unfold imgTag, quoted. rewrite !has_char_app.
      repeat split; try assumption; reflexivity. }
  unfold structuralPasses. cbv zeta.
  assert (has_char LT_SIGN
            (105 :: 109 :: 103
             :: attrs ++ js "alt=" ++ quoted alt ++ js " src=" ++ quoted src
                ++ js ">" ++ b) = false) as Hmid.
  { repeat (apply has_char_cons; split; [discriminate|]).
    unfold quoted. rewrite !has_char_app.
    repeat split; try assumption; reflexivity. }
  rewrite imgTag_one_lt.
  rewrite (replace_all_one_lt re_block);
    [|reflexivity | assumption | assumption | reflexivity].
  rewrite (replace_all_one_lt re_anchor);
    [|reflexivity | assumption | assumption | reflexivity].
  rewrite <- imgTag_one_lt.
  rewrite (replace_all_prefix re_img LT_SIGN) by (reflexivity || assumption).
  rewrite (replace_all_match re_img _ _ _ [(2%nat, src); (1%nat, alt)]).
  2:{ unfold imgTag. discriminate. }
  2:{ now apply match_here_img. }
  rewrite (replace_all_absent re_img LT_SIGN) by (reflexivity || assumption).
  cbn [capture Nat.eqb]. rewrite <- !app_assoc.
  rewrite (replace_all_absent re_tag LT_SIGN); [reflexivity | reflexivity|].
  rewrite !has_char_app. repeat split; try assumption; reflexivity.
Qed.

Lemma image_becomes_alt_and_url_witness :
  convertHtmlToText
    (js "Look: " ++
     imgTag (js " ") (js "a logo") (js "http://x.test/i.png") ++ js " end")
  = js "Look: [a logo] (http://x.test/i.png) end".
Proof.
  rewrite image_becomes_alt_and_url.
  - vm_compute. reflexivity.
  - split; reflexivity.
  - split; reflexivity.
  - repeat split.
  - repeat split.
  - repeat split.
  - discriminate.
  - reflexivity.
  - reflexivity.
  - reflexivity.
Defined.

(* ===================================================================== *)
(** ** Further properties: the requests of a cycle                        *)
(* ===================================================================== *)

Lemma publishOutcome_no_request r : isFetchGet (publishOutcome r) = false.
Proof.
  unfold publishOutcome.
  destruct r as [e|[o st [e|body]]]; simpl; [|destruct o..]; auto.
Qed.

(** The events one step of the loop adds. *)
Lemma processPost_events P env thirty post w :
  exists t,
    trace (snd (processPost P env thirty post w)) = trace w ++ t /\
    feedRequests t = [] /\
    publishCalls t
    = if isSkipped P thirty post w then [] else [publishRequest env post].
Proof.
  unfold isSkipped, processPost, publishRequest.
  destruct (date_lt (pubDateUTC post) thirty) eqn:Eold; cbn [orb].
  - unfold_monad. cbn [kv trace snd]. eexists.
    split; [reflexivity|]. split; reflexivity.
  - unfold try_catch, bind at 1. rewrite isPostAlreadyPublished_run.
    destruct (kv_get_rejects P (trace w) LAST_POST_KEY) as [e|].
    + unfold bind at 1. unfold console_log at 1, emit at 1.
      unfold bind at 1. rewrite publishToMastodon_run.
      unfold bind at 1. rewrite savePublishedPost_run. cbn [kv trace].
      destruct (kv_put_rejects P _ LAST_POST_KEY (link post));
        unfold_monad; cbn [kv trace snd]; rewrite <- ?app_assoc; cbn [app];
        eexists; (split; [reflexivity|]);
        cbn [feedRequests publishCalls List.filter isFetchGet isPublishCall];
        rewrite publishOutcome_no_request, (proj1 (publishOutcome_quiet _));
        split; reflexivity.
    + destruct (bool_decide (kv w !! LAST_POST_KEY = Some (link post))).
      * unfold_monad. cbn [kv trace snd]. rewrite <- ?app_assoc. eexists.
        split; [reflexivity|]. split; reflexivity.
      * unfold bind at 1. unfold console_log at 1, emit at 1.
        unfold bind at 1. rewrite publishToMastodon_run.
        unfold bind at 1. rewrite savePublishedPost_run. cbn [kv trace].
        destruct (kv_put_rejects P _ LAST_POST_KEY (link post));
          unfold_monad; cbn [kv trace snd]; rewrite <- ?app_assoc;
          cbn [app]; eexists; (split; [reflexivity|]);
          cbn [feedRequests publishCalls List.filter isFetchGet
               isPublishCall];
          rewrite publishOutcome_no_request, (proj1 (publishOutcome_quiet _));
          split; reflexivity.
Qed.

Lemma for_of_processPost_events P env thirty posts w :
  exists t published,
    trace (snd (for_of posts (processPost P env thirty) w)) = trace w ++ t /\
    feedRequests t = [] /\
    sublist published posts /\
    publishCalls t = map (publishRequest env) published.
Proof.
  revert w. induction posts as [|post posts IH]; intros w.
  - exists [], []. cbn. rewrite app_nil_r. repeat split. constructor.
  - cbn [for_of]. unfold bind.
    pose proof (processPost_returns P env thirty post w) as Hret.
    destruct (processPost_events P env thirty post w) as (t1 & Ht1 & Hf1 & Hc1).
    destruct (processPost P env thirty post w) as [[e|[]] w1];
      cbn [fst snd] in *; [discriminate|].
    destruct (IH w1) as (t2 & published & Ht2 & Hf2 & Hsub & Hc2).
    exists (t1 ++ t2).
    exists (if isSkipped P thirty post w then published
            else post :: published).
    rewrite Ht2, Ht1, <- app_assoc, feedRequests_app, publishCalls_app.
    rewrite Hf1, Hf2, Hc1, Hc2.
    split; [reflexivity|]. split; [reflexivity|].
    destruct (isSkipped P thirty post w).
    + split; [now apply sublist_cons | reflexivity].
    + split; [now apply sublist_skip | reflexivity].
Qed.

Lemma fetchAllPosts_events P url w :
  exists r t1,
    fetchAllPosts P url w = (r, {| kv := kv w; trace := trace w ++ t1 |}) /\
    feedRequests t1 = (if URL_valid P url then [FetchGet url] else []) /\
    publishCalls t1 = [].
Proof.
  unfold fetchAllPosts, fetch_get.
  destruct (URL_valid P url); cbn [negb].
  - unfold_monad. cbn [kv trace].
    destruct (feed P url) as [e|[o st [e|body]]]; cbn [ok text statusText].
    2,3: destruct o; cbn [negb].
    all: cbn [kv trace]; rewrite <- ?app_assoc; cbn [app].
    all: eexists; eexists; (split; [reflexivity|]); split; reflexivity.
  - unfold throw. exists (inl (mkError (js "Invalid RSS feed URL: " ++ url))), [].
    rewrite app_nil_r. destruct w. repeat split.
Qed.

Lemma fetchAllPosts_any_world P url w w' :
  fst (fetchAllPosts P url w) = fst (fetchAllPosts P url w').
Proof.
  unfold fetchAllPosts, fetch_get.
  destruct (URL_valid P url); cbn [negb]; [|reflexivity].
  unfold_monad. cbn [kv trace].
  destruct (feed P url) as [e|[o st [e|body]]]; cbn [ok text statusText].
  2,3: destruct o; cbn [negb].
  all: reflexivity.
Qed.

(** The events a whole cycle adds. *)
Lemma processLatestPosts_events P env w :
  exists t published,
    trace (snd (processLatestPosts P env w)) = trace w ++ t /\
    feedRequests t
    = (if URL_valid P (RSS_FEED_URL env)
       then [FetchGet (RSS_FEED_URL env)] else []) /\
    sublist published (cyclePosts P env w) /\
    publishCalls t = map (publishRequest env) published.
Proof.
  unfold processLatestPosts, cyclePosts.
  unfold try_catch, bind at 1, console_log at 1, emit at 1.
  unfold bind at 1.
  rewrite (fetchAllPosts_any_world P (RSS_FEED_URL env) w
             {| kv := kv w;
                trace := trace w ++
                  [ConsoleLog (js "Fetching all posts from RSS feed...")] |}).
  destruct (fetchAllPosts_events P (RSS_FEED_URL env)
              {| kv := kv w;
                 trace := trace w ++
                   [ConsoleLog (js "Fetching all posts from RSS feed...")] |})
    as (r & t1 & -> & Hf & Hc).
  cbn [kv trace fst].
  destruct r as [e | [|post posts]].
  - unfold_monad. cbn [kv trace snd]. rewrite <- !app_assoc.
    eexists. exists []. split; [reflexivity|].
    rewrite !feedRequests_app, !publishCalls_app, Hf, Hc.
    split; [apply app_nil_r|]. split; [constructor | reflexivity].
  - unfold_monad. cbn [kv trace snd]. rewrite <- !app_assoc.
    eexists. exists []. split; [reflexivity|].
    rewrite !feedRequests_app, !publishCalls_app, Hf, Hc.
    split; [apply app_nil_r|]. split; [constructor | reflexivity].
  - unfold bind at 1, console_log at 1, emit at 1. cbn [kv trace].
    unfold bind at 1, processPostsRecursively, bind at 1, history.
    cbn [trace].
    match goal with
    | |- context [for_of ?l (processPost P env ?th) ?w0] =>
        destruct (for_of_processPost_events P env th l w0)
          as (t & published & Ht & Hf2 & Hsub & Hc2);
        destruct (for_of_processPost_spec P env th l w0)
          as (w1 & pub' & Hrun & _)
    end.
    rewrite Hrun in *. cbn [snd kv trace] in Ht.
    unfold_monad. cbn [kv trace snd]. rewrite Ht, <- !app_assoc.
    eexists. exists published. split; [reflexivity|].
    rewrite !feedRequests_app, !publishCalls_app, Hf, Hc, Hf2, Hc2.
    cbn [feedRequests publishCalls List.filter isFetchGet isPublishCall].
    rewrite !app_nil_r. split; [reflexivity|]. split; [exact Hsub | reflexivity].
Qed.

(** X22.  A cycle asks for the feed once when the configured URL is a
    URL, and not at all otherwise. *)
Theorem cycle_requests_feed_once P env w :
  feedRequests (trace (snd (processLatestPosts P env w)))
  = feedRequests (trace w)
    ++ (if URL_valid P (RSS_FEED_URL env)
        then [FetchGet (RSS_FEED_URL env)] else []).
Proof.
  destruct (processLatestPosts_events P env w) as (t & published & -> & Hf & _).
  now rewrite feedRequests_app, Hf.
Qed.

(** X23.  Every publish call of a cycle is a request to the statuses
    endpoint of the configured instance, authorised with the configured
    token as bearer, with public visibility and, as status, the
    description of one post of the feed; the calls follow the order of
    the feed and no post is sent twice for one occurrence in it. *)
Theorem cycle_publish_requests P env w :
  exists published,
    sublist published (cyclePosts P env w) /\
    publishCalls (trace (snd (processLatestPosts P env w)))
    = publishCalls (trace w) ++ map (publishRequest env) published.
Proof.
  destruct (processLatestPosts_events P env w)
    as (t & published & -> & _ & Hsub & Hc).
  exists published. split; [exact Hsub|]. now rewrite publishCalls_app, Hc.
Qed.
